(** * Verification of the chess engine of yuanukim/chess

    The repository holds two generations of the same engine:
    - [chess_with_elysia.cpp] (C++20): the board is one [std::string] of
      12 x 12 cells followed by four state characters, and the undo
      history is a deque of whole snapshots.  It is embedded in
      [Module Elysia].
    - the older C++14 program: the board is a 12 x 12 array of an
      enumeration, and the undo history is a deque of per-move deltas.
      It is embedded in [Module Legacy].

    Conventions of the embedding.
    - [int32_t] coordinates are [Z]; every coordinate that occurs is a
      small constant away from a cell of the 12 x 12 grid, so no
      wrap-around can happen.
    - [char] cells are [ascii]; the two places where the source does
      arithmetic on characters ([r + '0'] and [data[i] - '0']) go through
      [char_of_int] and [int_of_char], with the 8-bit truncation written
      out.
    - a [std::vector<Move>&] that a generator appends to is passed in and
      returned; [emplace_back] is [vec ++ [m]].
    - a deque used as a stack is a list whose head is [back()].
    - [float] scores are integers: the search only compares, maximises and
      minimises them, and the evaluator's tables are parameters. *)

From Stdlib Require Import ZArith Ascii String List Bool Lia.
Import ListNotations.
Open Scope Z_scope.

(** ** Cells of a character buffer *)

Section Buffer.
Context {A : Type}.

(** [nth_Z d i dflt] reads [d[i]]; an index outside the buffer, which is
    undefined behaviour in the source, reads as [dflt]. *)
Definition nth_Z (d : list A) (i : Z) (dflt : A) : A :=
  if i <? 0 then dflt else nth (Z.to_nat i) d dflt.

Fixpoint update_nat (d : list A) (n : nat) (x : A) : list A :=
  match d, n with
  | [], _ => []
  | _ :: t, O => x :: t
  | h :: t, S n' => h :: update_nat t n' x
  end.

(** [update_Z d i x] performs [d[i] = x]; a write outside the buffer is
    dropped. *)
Definition update_Z (d : list A) (i : Z) (x : A) : list A :=
  if i <? 0 then d else update_nat d (Z.to_nat i) x.
End Buffer.

(** ** The C++20 engine, [chess_with_elysia.cpp] *)

Module Elysia.

Inductive Side := upper | down | extra.

Inductive PieceType :=
  pawn | rook | knight | bishop | queen | king | empty | out.

Inductive MoveType :=
  | invalid
  | normal
  | en_passant
  | long_castling
  | short_castling
  | pawn_move_and_promote
  | pawn_2_steps.

Definition Side_eqb (a b : Side) : bool :=
  match a, b with
  | upper, upper | down, down | extra, extra => true
  | _, _ => false
  end.

Definition MoveType_eqb (a b : MoveType) : bool :=
  match a, b with
  | invalid, invalid | normal, normal | en_passant, en_passant
  | long_castling, long_castling | short_castling, short_castling
  | pawn_move_and_promote, pawn_move_and_promote
  | pawn_2_steps, pawn_2_steps => true
  | _, _ => false
  end.

Definition Piece := ascii.

Definition P_UP : Piece := "P"%char.
Definition P_UR : Piece := "R"%char.
Definition P_UN : Piece := "N"%char.
Definition P_UB : Piece := "B"%char.
Definition P_UQ : Piece := "Q"%char.
Definition P_UK : Piece := "K"%char.
Definition P_DP : Piece := "p"%char.
Definition P_DR : Piece := "r"%char.
Definition P_DN : Piece := "n"%char.
Definition P_DB : Piece := "b"%char.
Definition P_DQ : Piece := "q"%char.
Definition P_DK : Piece := "k"%char.
Definition P_EE : Piece := "."%char.
Definition P_EO : Piece := "#"%char.

Definition is_one_of (p : Piece) (l : list Piece) : bool :=
  existsb (Ascii.eqb p) l.

Definition piece_type (p : Piece) : PieceType :=
  if is_one_of p [P_UP; P_DP] then pawn
  else if is_one_of p [P_UR; P_DR] then rook
  else if is_one_of p [P_UN; P_DN] then knight
  else if is_one_of p [P_UB; P_DB] then bishop
  else if is_one_of p [P_UQ; P_DQ] then queen
  else if is_one_of p [P_UK; P_DK] then king
  else if Ascii.eqb p P_EE then empty
  else out.

Definition piece_side (p : Piece) : Side :=
  if is_one_of p [P_UP; P_UR; P_UN; P_UB; P_UQ; P_UK] then upper
  else if is_one_of p [P_DP; P_DR; P_DN; P_DB; P_DQ; P_DK] then down
  else extra.

Record Pos := mkPos { row : Z; col : Z }.

Definition Pos_eqb (a b : Pos) : bool :=
  (row a =? row b) && (col a =? col b).

Record Move := mkMove {
  from : Pos;
  to : Pos;
  moveType : MoveType;
  promoteP : Piece
}.

(** [Move()]. *)
Definition Move_default : Move := mkMove (mkPos 0 0) (mkPos 0 0) invalid P_EO.

(** [Move(from, to, moveType)]. *)
Definition Move3 (f t : Pos) (k : MoveType) : Move := mkMove f t k P_EO.

(** [Move::operator==]: kind and promotion piece are not compared. *)
Definition Move_eqb (a b : Move) : bool :=
  Pos_eqb (from a) (from b) && Pos_eqb (to a) (to b).

(** *** Board *)

Record Board := mkBoard {
  data : list ascii;
  history : list (list ascii)
}.

Definition upper_king_start_pos : Z := 30.
Definition down_king_start_pos : Z := 114.
Definition upper_castle_flag_pos : Z := 144.
Definition down_castle_flag_pos : Z := 145.
Definition en_passant_row_pos : Z := 146.
Definition en_passant_col_pos : Z := 147.

Definition width : Z := 12.
Definition line_begin : Z := 2.
Definition line_end : Z := 9.
Definition upper_pawn_begin_row : Z := 3.
Definition upper_pawn_promote_row : Z := 9.
Definition down_pawn_begin_row : Z := 8.
Definition down_pawn_promote_row : Z := 2.

(** Conversion of an [int] to [char] and back ([char] is a signed 8-bit
    type on the platforms the program names). *)
Definition char_of_int (z : Z) : ascii := ascii_of_N (Z.to_N (z mod 256)).

Definition int_of_char (c : ascii) : Z :=
  let n := Z.of_N (N_of_ascii c) in if n <? 128 then n else n - 256.

Definition cell (b : Board) (i : Z) : ascii := nth_Z (data b) i P_EO.

Definition set_cell (b : Board) (i : Z) (p : ascii) : Board :=
  mkBoard (update_Z (data b) i p) (history b).

Definition set (b : Board) (r c : Z) (p : Piece) : Board :=
  set_cell b (r * width + c) p.

Definition set_pos (b : Board) (pos : Pos) (p : Piece) : Board :=
  set b (row pos) (col pos) p.

Definition get_upper_castle_flag (b : Board) : bool :=
  negb (int_of_char (cell b upper_castle_flag_pos) - int_of_char "0" =? 0).

Definition get_down_castle_flag (b : Board) : bool :=
  negb (int_of_char (cell b down_castle_flag_pos) - int_of_char "0" =? 0).

Definition set_upper_castle_flag (b : Board) (flag : bool) : Board :=
  set_cell b upper_castle_flag_pos (if flag then "1" else "0")%char.

Definition set_down_castle_flag (b : Board) (flag : bool) : Board :=
  set_cell b down_castle_flag_pos (if flag then "1" else "0")%char.

Definition set_en_passant_pos (b : Board) (r c : Z) : Board :=
  let b := set_cell b en_passant_row_pos (char_of_int (r + int_of_char "0")) in
  set_cell b en_passant_col_pos (char_of_int (c + int_of_char "0")).

Definition reset_en_passant_pos (b : Board) : Board :=
  set_en_passant_pos b 0 0.

Definition initial_data : list ascii :=
  list_ascii_of_string
    ("############" ++
     "############" ++
     "##RNBQKBNR##" ++
     "##PPPPPPPP##" ++
     "##........##" ++
     "##........##" ++
     "##........##" ++
     "##........##" ++
     "##pppppppp##" ++
     "##rnbqkbnr##" ++
     "############" ++
     "############" ++
     "1100")%string.

(** [Board::reset], which is also what the constructor runs. *)
Definition reset : Board := mkBoard initial_data [].

(** [std::string_view{ data.data() + start, n } == lit]. *)
Definition view_eqb (b : Board) (start : Z) (lit : string) : bool :=
  let cs := list_ascii_of_string lit in
  forallb (fun '(k, ch) => Ascii.eqb (cell b (start + Z.of_nat k)) ch)
          (combine (seq 0 (length cs)) cs).

Definition can_upper_short_castle (b : Board) : bool :=
  if get_upper_castle_flag b then view_eqb b (upper_king_start_pos + 1) "..R"
  else false.

Definition can_upper_long_castle (b : Board) : bool :=
  if get_upper_castle_flag b then view_eqb b (upper_king_start_pos - 4) "R..."
  else false.

Definition can_down_short_castle (b : Board) : bool :=
  if get_down_castle_flag b then view_eqb b (down_king_start_pos + 1) "..r"
  else false.

Definition can_down_long_castle (b : Board) : bool :=
  if get_down_castle_flag b then view_eqb b (down_king_start_pos - 4) "r..."
  else false.

Definition has_chance_to_do_en_passant (b : Board) : bool :=
  negb (Ascii.eqb (cell b en_passant_row_pos) "0") &&
  negb (Ascii.eqb (cell b en_passant_col_pos) "0").

Definition en_passant_pos (b : Board) : Pos :=
  mkPos (line_begin + int_of_char (cell b en_passant_row_pos) - int_of_char "0")
        (line_begin + int_of_char (cell b en_passant_col_pos) - int_of_char "0").

Definition get (b : Board) (r c : Z) : Piece := cell b (r * width + c).

Definition get_pos (b : Board) (pos : Pos) : Piece := get b (row pos) (col pos).

(** [history.emplace_back(data)]. *)
Definition push_history (b : Board) : Board :=
  mkBoard (data b) (data b :: history b).

(** [Board::move]. *)
Definition move (b : Board) (mv : Move) : Board :=
  if MoveType_eqb (moveType mv) invalid then b
  else
    let b := push_history b in
    let fromP := get_pos b (from mv) in
    let b := reset_en_passant_pos b in
    if MoveType_eqb (moveType mv) pawn_move_and_promote then
      let b := set_pos b (to mv) (promoteP mv) in
      set_pos b (from mv) P_EE
    else
      let b := set_pos b (to mv) fromP in
      let b := set_pos b (from mv) P_EE in
      let b :=
        if Ascii.eqb fromP P_UK then set_upper_castle_flag b false
        else if Ascii.eqb fromP P_DK then set_down_castle_flag b false
        else b in
      let fr := row (from mv) in
      let fc := col (from mv) in
      match moveType mv with
      | long_castling =>
          let b := set b fr (fc - 1) (get b fr (fc - 4)) in
          set b fr (fc - 4) P_EE
      | short_castling =>
          let b := set b fr (fc + 1) (get b fr (fc + 3)) in
          set b fr (fc + 3) P_EE
      | en_passant =>
          set b fr (col (to mv)) P_EE
      | pawn_2_steps =>
          let s := piece_side fromP in
          let reversePawn := if Side_eqb s upper then P_DP else P_UP in
          if Ascii.eqb (get b fr (fc - 1)) reversePawn then
            set_en_passant_pos b fr (fc - 1)
          else if Ascii.eqb (get b fr (fc + 1)) reversePawn then
            set_en_passant_pos b fr (fc + 1)
          else b
      | _ => b
      end.

(** [Board::undo]. *)
Definition undo (b : Board) : Board :=
  match history b with
  | [] => b
  | snapshot :: rest => mkBoard snapshot rest
  end.

(** *** MovesGen *)

Definition try_add_possible_move (b : Board) (f t : Pos) (vec : list Move)
  : bool * list Move :=
  let fromP := get_pos b f in
  let toP := get_pos b t in
  if Ascii.eqb toP P_EO then (false, vec)
  else if Ascii.eqb toP P_EE then (true, vec ++ [Move3 f t normal])
  else if negb (Side_eqb (piece_side fromP) (piece_side toP))
       then (false, vec ++ [Move3 f t normal])
       else (false, vec).

(** One [for (rr = ..., cc = ...; try_add_possible_move(...); rr += dr, cc += dc);]
    loop.  The loop has no bound of its own: it stops at the first cell
    that is not empty.  In this embedding a cell outside the buffer reads
    as the off-board piece, so no scan outlives the 148 cells of the
    buffer; [ray_fuel] is that bound. *)
Fixpoint scan_ray (fuel : nat) (b : Board) (f : Pos) (dr dc rr cc : Z)
                  (vec : list Move) : list Move :=
  match fuel with
  | O => vec
  | S fuel' =>
      let '(go, vec') := try_add_possible_move b f (mkPos rr cc) vec in
      if go then scan_ray fuel' b f dr dc (rr + dr) (cc + dc) vec' else vec'
  end.

Definition ray_fuel : nat := 148.

Definition gen_crossing (b : Board) (f : Pos) (vec : list Move) : list Move :=
  let vec := scan_ray ray_fuel b f (-1) 0 (row f - 1) (col f) vec in
  let vec := scan_ray ray_fuel b f 1 0 (row f + 1) (col f) vec in
  let vec := scan_ray ray_fuel b f 0 (-1) (row f) (col f - 1) vec in
  scan_ray ray_fuel b f 0 1 (row f) (col f + 1) vec.

Definition gen_diagonal (b : Board) (f : Pos) (vec : list Move) : list Move :=
  let vec := scan_ray ray_fuel b f (-1) (-1) (row f - 1) (col f - 1) vec in
  let vec := scan_ray ray_fuel b f (-1) 1 (row f - 1) (col f + 1) vec in
  let vec := scan_ray ray_fuel b f 1 (-1) (row f + 1) (col f - 1) vec in
  scan_ray ray_fuel b f 1 1 (row f + 1) (col f + 1) vec.

Definition pawn_add_and_check_promote (s : Side) (f t : Pos) (canPromote : bool)
                                      (vec : list Move) : list Move :=
  if canPromote then
    let up := Side_eqb s upper in
    let vec := vec ++ [mkMove f t pawn_move_and_promote (if up then P_UR else P_DR)] in
    let vec := vec ++ [mkMove f t pawn_move_and_promote (if up then P_UN else P_DN)] in
    let vec := vec ++ [mkMove f t pawn_move_and_promote (if up then P_UB else P_DB)] in
    vec ++ [mkMove f t pawn_move_and_promote (if up then P_UQ else P_DQ)]
  else vec ++ [Move3 f t normal].

Definition pawn_steps_upper (b : Board) (f : Pos) (vec : list Move) : list Move :=
  let vec :=
    if has_chance_to_do_en_passant b then
      let ep := en_passant_pos b in
      if row f =? row ep then
        if (col f + 1 =? col ep) || (col f - 1 =? col ep) then
          vec ++ [Move3 f (mkPos (row f + 1) (col ep)) en_passant]
        else vec
      else vec
    else vec in
  let vec :=
    if Ascii.eqb (get b (row f + 1) (col f)) P_EE then
      let vec :=
        if (row f =? upper_pawn_begin_row)
           && Ascii.eqb (get b (row f + 2) (col f)) P_EE
        then vec ++ [Move3 f (mkPos (row f + 2) (col f)) pawn_2_steps]
        else vec in
      pawn_add_and_check_promote upper f (mkPos (row f + 1) (col f))
                                 (row f + 1 =? upper_pawn_promote_row) vec
    else vec in
  fold_left
    (fun vec c =>
       let p := get b (row f + 1) c in
       let s := piece_side p in
       if negb (Side_eqb s extra) && negb (Side_eqb s (piece_side (get_pos b f)))
       then pawn_add_and_check_promote upper f (mkPos (row f + 1) c)
                                       (row f + 1 =? upper_pawn_promote_row) vec
       else vec)
    [col f + 1; col f - 1] vec.

Definition pawn_steps_down (b : Board) (f : Pos) (vec : list Move) : list Move :=
  let vec :=
    if has_chance_to_do_en_passant b then
      let ep := en_passant_pos b in
      if row f =? row ep then
        if (col f + 1 =? col ep) || (col f - 1 =? col ep) then
          vec ++ [Move3 f (mkPos (row f - 1) (col ep)) en_passant]
        else vec
      else vec
    else vec in
  let vec :=
    if Ascii.eqb (get b (row f - 1) (col f)) P_EE then
      let vec :=
        if (row f =? down_pawn_begin_row)
           && Ascii.eqb (get b (row f - 2) (col f)) P_EE
        then vec ++ [Move3 f (mkPos (row f - 2) (col f)) pawn_2_steps]
        else vec in
      pawn_add_and_check_promote down f (mkPos (row f - 1) (col f))
                                 (row f - 1 =? down_pawn_promote_row) vec
    else vec in
  fold_left
    (fun vec c =>
       let p := get b (row f - 1) c in
       let s := piece_side p in
       if negb (Side_eqb s extra) && negb (Side_eqb s (piece_side (get_pos b f)))
       then pawn_add_and_check_promote down f (mkPos (row f - 1) c)
                                       (row f - 1 =? down_pawn_promote_row) vec
       else vec)
    [col f + 1; col f - 1] vec.

Definition pawn_steps (b : Board) (f : Pos) (vec : list Move) : list Move :=
  if Ascii.eqb (get_pos b f) P_UP then pawn_steps_upper b f vec
  else pawn_steps_down b f vec.

Definition rook_steps := gen_crossing.

(** A call whose boolean result the caller drops. *)
Definition try_add (b : Board) (f : Pos) (dr dc : Z) (vec : list Move)
  : list Move :=
  snd (try_add_possible_move b f (mkPos (row f + dr) (col f + dc)) vec).

Definition knight_steps (b : Board) (f : Pos) (vec : list Move) : list Move :=
  let vec := try_add b f 2 (-1) vec in
  let vec := try_add b f 2 1 vec in
  let vec := try_add b f 1 (-2) vec in
  let vec := try_add b f 1 2 vec in
  let vec := try_add b f (-1) (-2) vec in
  let vec := try_add b f (-1) 2 vec in
  let vec := try_add b f (-2) (-1) vec in
  try_add b f (-2) 1 vec.

Definition bishop_steps := gen_diagonal.

Definition queen_steps (b : Board) (f : Pos) (vec : list Move) : list Move :=
  gen_diagonal b f (gen_crossing b f vec).

Definition king_steps (b : Board) (f : Pos) (vec : list Move) : list Move :=
  let vec := try_add b f (-1) (-1) vec in
  let vec := try_add b f (-1) 0 vec in
  let vec := try_add b f (-1) 1 vec in
  let vec := try_add b f 0 (-1) vec in
  let vec := try_add b f 0 1 vec in
  let vec := try_add b f 1 (-1) vec in
  let vec := try_add b f 1 0 vec in
  let vec := try_add b f 1 1 vec in
  let fromP := get_pos b f in
  let s := piece_side fromP in
  if Side_eqb s upper then
    let vec :=
      if can_upper_short_castle b
      then vec ++ [Move3 f (mkPos (row f) (col f + 2)) short_castling] else vec in
    if can_upper_long_castle b
    then vec ++ [Move3 f (mkPos (row f) (col f - 2)) long_castling] else vec
  else
    let vec :=
      if can_down_short_castle b
      then vec ++ [Move3 f (mkPos (row f) (col f + 2)) short_castling] else vec in
    if can_down_long_castle b
    then vec ++ [Move3 f (mkPos (row f) (col f - 2)) long_castling] else vec.

(** The values of [r] (and of [c]) in
    [for (r = Board::line_begin; r <= Board::line_end; ++r)]. *)
Definition lines : list Z :=
  map (fun k => line_begin + Z.of_nat k)
      (seq 0 (Z.to_nat (line_end - line_begin + 1))).

(** The body of the inner loop of [gen_moves_for_one_side]. *)
Definition gen_moves_at (b : Board) (s : Side) (r c : Z) (vec : list Move)
  : list Move :=
  let p := get b r c in
  if Side_eqb (piece_side p) s then
    match piece_type p with
    | pawn => pawn_steps b (mkPos r c) vec
    | rook => rook_steps b (mkPos r c) vec
    | knight => knight_steps b (mkPos r c) vec
    | bishop => bishop_steps b (mkPos r c) vec
    | queen => queen_steps b (mkPos r c) vec
    | king => king_steps b (mkPos r c) vec
    | _ => vec
    end
  else vec.

Definition gen_moves_for_one_side (b : Board) (s : Side) : list Move :=
  fold_left
    (fun vec r => fold_left (fun vec c => gen_moves_at b s r c vec) lines vec)
    lines [].


(** *** ScoreEvaluator and the two search classes

    [piece_value] and [piece_pos_value] are the two global maps that
    [ScoreEvaluator::init_values] fills from the weight files. *)

Section Search.

Variable piece_value : Piece -> Z.
Variable piece_pos_value : Piece -> Z -> Z -> Z.

Definition evaluate (b : Board) : Z :=
  fold_left
    (fun score r =>
       fold_left
         (fun score c =>
            let p := get b r c in
            if negb (Ascii.eqb p P_EE)
            then score + piece_value p + piece_pos_value p r c
            else score)
         lines score)
    lines 0.

Definition LOWER_BOUND : Z := -5000000.
Definition UPPER_BOUND : Z := 5000000.

(** The [for (const Move& mv : moves)] loop of the maximising branch of
    [min_max]; [rec] is the recursive call at [thinkDepth - 1].  With
    [prune = false] the [if (alpha >= beta) break;] is taken out and the
    rest is unchanged. *)
Fixpoint max_loop (prune : bool) (rec : Board -> Z -> Z -> Z * Board)
                  (moves : list Move) (b : Board) (bestVal alpha beta : Z)
  : Z * Board :=
  match moves with
  | [] => (bestVal, b)
  | mv :: rest =>
      let b := move b mv in
      let '(v, b) := rec b alpha beta in
      let bestVal := Z.max bestVal v in
      let b := undo b in
      let alpha := Z.max alpha bestVal in
      if prune && (alpha >=? beta) then (bestVal, b)
      else max_loop prune rec rest b bestVal alpha beta
  end.

Fixpoint min_loop (prune : bool) (rec : Board -> Z -> Z -> Z * Board)
                  (moves : list Move) (b : Board) (bestVal alpha beta : Z)
  : Z * Board :=
  match moves with
  | [] => (bestVal, b)
  | mv :: rest =>
      let b := move b mv in
      let '(v, b) := rec b alpha beta in
      let bestVal := Z.min bestVal v in
      let b := undo b in
      let beta := Z.min beta bestVal in
      if prune && (alpha >=? beta) then (bestVal, b)
      else min_loop prune rec rest b bestVal alpha beta
  end.

(** [min_max] of [BestMoveGen] (and, word for word, of
    [BestMoveGenParallel]); the board is passed by reference, so it is
    returned next to the value. *)
Fixpoint min_max_with (prune : bool) (thinkDepth : nat) (b : Board)
                      (alpha beta : Z) (isMax : bool) : Z * Board :=
  match thinkDepth with
  | O => (evaluate b, b)
  | S d =>
      if isMax then
        max_loop prune (fun b a be => min_max_with prune d b a be (negb isMax))
                 (gen_moves_for_one_side b down) b LOWER_BOUND alpha beta
      else
        min_loop prune (fun b a be => min_max_with prune d b a be (negb isMax))
                 (gen_moves_for_one_side b upper) b UPPER_BOUND alpha beta
  end.

(** The function of the source. *)
Definition min_max := min_max_with true.

(** The same recursion with the early exit removed: plain minimax. *)
Definition min_max_no_pruning := min_max_with false.

(** The root loop of [gen_best_for] for the upper side, which is also
    the loop each task of the parallel search runs on its chunk. *)
Fixpoint root_loop_upper (thinkDepth : nat) (moves : list Move) (b : Board)
                         (minValue : Z) (bestMove : Move)
  : Z * Move * Board :=
  match moves with
  | [] => (minValue, bestMove, b)
  | mv :: rest =>
      let b := move b mv in
      let '(val, b) := min_max thinkDepth b LOWER_BOUND UPPER_BOUND true in
      let b := undo b in
      if val <=? minValue
      then root_loop_upper thinkDepth rest b val mv
      else root_loop_upper thinkDepth rest b minValue bestMove
  end.

Fixpoint root_loop_down (thinkDepth : nat) (moves : list Move) (b : Board)
                        (maxValue : Z) (bestMove : Move)
  : Z * Move * Board :=
  match moves with
  | [] => (maxValue, bestMove, b)
  | mv :: rest =>
      let b := move b mv in
      let '(val, b) := min_max thinkDepth b LOWER_BOUND UPPER_BOUND false in
      let b := undo b in
      if val >=? maxValue
      then root_loop_down thinkDepth rest b val mv
      else root_loop_down thinkDepth rest b maxValue bestMove
  end.

(** [BestMoveGen::gen_best_for]: the move, and the board it leaves. *)
Definition gen_best_for (b : Board) (s : Side) (thinkDepth : nat)
  : Move * Board :=
  if Side_eqb s upper then
    let '(_, bestMove, b) :=
      root_loop_upper thinkDepth (gen_moves_for_one_side b upper) b
                      UPPER_BOUND Move_default in
    (bestMove, b)
  else
    let '(_, bestMove, b) :=
      root_loop_down thinkDepth (gen_moves_for_one_side b down) b
                     LOWER_BOUND Move_default in
    (bestMove, b).

(** **** BestMoveGenParallel *)

Definition split_chunk_num : Z := 32.

(** [chunkNum - 1] in [size_t] arithmetic: [chunkNum] is a [size_t], so
    the subtraction wraps around exactly when [chunkNum] is 0. *)
Definition size_t_pred (z : Z) : Z := if z =? 0 then 2 ^ 64 - 1 else z - 1.

(** [std::span(vec.begin() + start, len)]: [None] when the span leaves
    the vector, which is undefined behaviour in the source. *)
Definition span_of {A} (vec : list A) (start len : Z) : option (list A) :=
  if (0 <=? start) && (0 <=? len) && (start + len <=? Z.of_nat (length vec))
  then Some (firstn (Z.to_nat len) (skipn (Z.to_nat start) vec))
  else None.

(** The [for (counter = 0; counter != chunkNum - 1; ++counter)] loop of
    [split_vector] followed by its last [emplace_back].  Every round
    that does not fail consumes [chunkLength >= 1] elements, so
    [length vec + 1] rounds of fuel are never used up. *)
Fixpoint split_loop {A} (fuel : nat) (vec : list A)
                    (chunkNum chunkLength counter : Z)
                    (result : list (list A)) : option (list (list A)) :=
  if counter =? size_t_pred chunkNum then
    match span_of vec (counter * chunkLength)
                  (Z.of_nat (length vec) - counter * chunkLength) with
    | Some last => Some (result ++ [last])
    | None => None
    end
  else
    match fuel with
    | O => None
    | S fuel' =>
        match span_of vec (counter * chunkLength) chunkLength with
        | Some chunk =>
            split_loop fuel' vec chunkNum chunkLength (counter + 1)
                       (result ++ [chunk])
        | None => None
        end
    end.

Definition split_vector {A} (vec : list A) (chunkNum : Z)
  : option (list (list A)) :=
  let size := Z.of_nat (length vec) in
  let chunkLength := size / chunkNum in
  let '(chunkNum, chunkLength) :=
    if chunkLength =? 0 then (size, 1) else (chunkNum, chunkLength) in
  split_loop (S (length vec)) vec chunkNum chunkLength 0 [].

(** What one [std::async] task leaves in [bestMoves[i]] and
    [bestValues[i]]; it works on [tempBoard], a copy of the board. *)
Definition task_upper (thinkDepth : nat) (b : Board) (chunk : list Move)
  : Move * Z :=
  let '(minValue, bestMove, _) :=
    root_loop_upper thinkDepth chunk b UPPER_BOUND Move_default in
  (bestMove, minValue).

Definition task_down (thinkDepth : nat) (b : Board) (chunk : list Move)
  : Move * Z :=
  let '(maxValue, bestMove, _) :=
    root_loop_down thinkDepth chunk b LOWER_BOUND Move_default in
  (bestMove, maxValue).

(** The reduction over [bestValues]; [minIndex] is declared without an
    initial value, hence the [option]. *)
Fixpoint reduce_upper (bestValues : list Z) (i : nat) (minVal : Z)
                      (minIndex : option nat) : option nat :=
  match bestValues with
  | [] => minIndex
  | v :: rest =>
      if v <=? minVal then reduce_upper rest (S i) v (Some i)
      else reduce_upper rest (S i) minVal minIndex
  end.

Fixpoint reduce_down (bestValues : list Z) (i : nat) (maxVal : Z)
                     (maxIndex : option nat) : option nat :=
  match bestValues with
  | [] => maxIndex
  | v :: rest =>
      if v >=? maxVal then reduce_down rest (S i) v (Some i)
      else reduce_down rest (S i) maxVal maxIndex
  end.

(** [BestMoveGenParallel::gen_best_for].  The tasks share nothing but
    the read-only board and write to distinct slots, and the caller
    joins all of them, so the result is that of running them one after
    the other.  [None] stands for undefined behaviour. *)
Definition gen_best_for_parallel (b : Board) (s : Side) (thinkDepth : nat)
  : option Move :=
  if Side_eqb s upper then
    match split_vector (gen_moves_for_one_side b upper) split_chunk_num with
    | None => None
    | Some splitMoves =>
        let results := map (task_upper thinkDepth b) splitMoves in
        match reduce_upper (map snd results) 0 UPPER_BOUND None with
        | None => None
        | Some minIndex => nth_error (map fst results) minIndex
        end
    end
  else
    match split_vector (gen_moves_for_one_side b down) split_chunk_num with
    | None => None
    | Some splitMoves =>
        let results := map (task_down thinkDepth b) splitMoves in
        match reduce_down (map snd results) 0 LOWER_BOUND None with
        | None => None
        | Some maxIndex => nth_error (map fst results) maxIndex
        end
    end.

End Search.

End Elysia.

(** ** The C++14 engine *)

Module Legacy.

Definition EDGE_LEN : Z := 12.
Definition LINE_BEGIN : Z := 2.
Definition LINE_END : Z := 10.
Definition UPPER_PAWN_BEGIN_ROW : Z := 3.
Definition DOWN_PAWN_BEGIN_ROW : Z := 8.
Definition UPPER_PAWN_PROMOTE_ROW : Z := 9.
Definition DOWN_PAWN_PROMOTE_ROW : Z := 2.

Inductive Side := PS_UPPER | PS_DOWN | PS_EXTRA.

Inductive PieceType :=
  PT_PAWN | PT_ROOK | PT_KNIGHT | PT_BISHOP | PT_QUEEN | PT_KING
  | PT_EMPTY | PT_OUT.

Inductive Piece :=
  P_UP | P_UR | P_UN | P_UB | P_UQ | P_UK
  | P_DP | P_DR | P_DN | P_DB | P_DQ | P_DK
  | P_EE | P_EO.

Definition get_type (p : Piece) : PieceType :=
  match p with
  | P_UP | P_DP => PT_PAWN
  | P_UR | P_DR => PT_ROOK
  | P_UN | P_DN => PT_KNIGHT
  | P_UB | P_DB => PT_BISHOP
  | P_UQ | P_DQ => PT_QUEEN
  | P_UK | P_DK => PT_KING
  | P_EE => PT_EMPTY
  | P_EO => PT_OUT
  end.

Definition get_side (p : Piece) : Side :=
  match p with
  | P_UP | P_UR | P_UN | P_UB | P_UQ | P_UK => PS_UPPER
  | P_DP | P_DR | P_DN | P_DB | P_DQ | P_DK => PS_DOWN
  | P_EE | P_EO => PS_EXTRA
  end.

Definition Side_eqb (a b : Side) : bool :=
  match a, b with
  | PS_UPPER, PS_UPPER | PS_DOWN, PS_DOWN | PS_EXTRA, PS_EXTRA => true
  | _, _ => false
  end.

Definition Piece_eqb (a b : Piece) : bool :=
  match a, b with
  | P_UP, P_UP | P_UR, P_UR | P_UN, P_UN | P_UB, P_UB | P_UQ, P_UQ
  | P_UK, P_UK | P_DP, P_DP | P_DR, P_DR | P_DN, P_DN | P_DB, P_DB
  | P_DQ, P_DQ | P_DK, P_DK | P_EE, P_EE | P_EO, P_EO => true
  | _, _ => false
  end.

Inductive MoveType :=
  | INVALID
  | NORMAL
  | EN_PASSANT
  | LONG_CASTLE
  | SHORT_CASTLE
  | GO_AND_PROMOTE
  | PAWN_2_STEPS.

Record Pos := mkPos { row : Z; col : Z }.

Record Move := mkMove { from : Pos; to : Pos; moveType : MoveType }.

Definition BoardData := list (list Piece).

Record HistoryNode := mkHistoryNode {
  h_from : Pos;
  h_to : Pos;
  h_moveType : MoveType;
  h_fromP : Piece;
  h_toP : Piece
}.

Record ChessBoard := mkChessBoard {
  data : BoardData;
  history : list HistoryNode;
  canUpperCastle : bool;
  canDownCastle : bool;
  enPassantPos : Pos
}.

Definition get (cb : ChessBoard) (r c : Z) : Piece :=
  nth_Z (nth_Z (data cb) r []) c P_EO.

Definition get_pos (cb : ChessBoard) (pos : Pos) : Piece :=
  get cb (row pos) (col pos).

Definition set (cb : ChessBoard) (r c : Z) (p : Piece) : ChessBoard :=
  mkChessBoard (update_Z (data cb) r (update_Z (nth_Z (data cb) r []) c p))
               (history cb) (canUpperCastle cb) (canDownCastle cb)
               (enPassantPos cb).

Definition set_pos (cb : ChessBoard) (pos : Pos) (p : Piece) : ChessBoard :=
  set cb (row pos) (col pos) p.

Definition set_canUpperCastle (cb : ChessBoard) (v : bool) : ChessBoard :=
  mkChessBoard (data cb) (history cb) v (canDownCastle cb) (enPassantPos cb).

Definition set_canDownCastle (cb : ChessBoard) (v : bool) : ChessBoard :=
  mkChessBoard (data cb) (history cb) (canUpperCastle cb) v (enPassantPos cb).

Definition set_enPassantPos (cb : ChessBoard) (pos : Pos) : ChessBoard :=
  mkChessBoard (data cb) (history cb) (canUpperCastle cb) (canDownCastle cb) pos.

Definition set_history (cb : ChessBoard) (h : list HistoryNode) : ChessBoard :=
  mkChessBoard (data cb) h (canUpperCastle cb) (canDownCastle cb)
               (enPassantPos cb).

Definition reset_castle (cb : ChessBoard) (side : Side) : ChessBoard :=
  if Side_eqb side PS_UPPER then set_canUpperCastle cb true
  else set_canDownCastle cb true.

Definition reset_en_passant (cb : ChessBoard) : ChessBoard :=
  set_enPassantPos cb (mkPos 0 0).

Definition can_upper_castle := canUpperCastle.
Definition can_down_castle := canDownCastle.
Definition get_en_passant_pos := enPassantPos.

(** [ChessBoard::move(Move const&)]. *)
Definition move (cb : ChessBoard) (mv : Move) : ChessBoard :=
  let fromP := get_pos cb (from mv) in
  let cb := set_history cb
              (mkHistoryNode (from mv) (to mv) (moveType mv) fromP
                             (get_pos cb (to mv)) :: history cb) in
  let cb := set_pos cb (to mv) fromP in
  let cb := set_pos cb (from mv) P_EE in
  let cb := reset_en_passant cb in
  let cb :=
    match fromP with
    | P_UK => set_canUpperCastle cb false
    | P_DK => set_canDownCastle cb false
    | _ => cb
    end in
  let fr := row (from mv) in
  let fc := col (from mv) in
  match moveType mv with
  | LONG_CASTLE =>
      let cb := set cb fr (fc - 1) (get cb fr (fc - 4)) in
      set cb fr (fc - 4) P_EE
  | SHORT_CASTLE =>
      let cb := set cb fr (fc + 1) (get cb fr (fc + 3)) in
      set cb fr (fc + 3) P_EE
  | EN_PASSANT =>
      set cb fr (col (to mv)) P_EE
  | PAWN_2_STEPS =>
      let s := get_side fromP in
      let reversePawn := if Side_eqb s PS_UPPER then P_DP else P_UP in
      if Piece_eqb (get cb fr (fc - 1)) reversePawn then
        set_enPassantPos cb (mkPos fr (fc - 1))
      else if Piece_eqb (get cb fr (fc + 1)) reversePawn then
        set_enPassantPos cb (mkPos fr (fc + 1))
      else cb
  | _ => cb
  end.

(** [ChessBoard::move(Move const&, Piece promoteP)]. *)
Definition move_promote (cb : ChessBoard) (mv : Move) (promoteP : Piece)
  : ChessBoard :=
  let cb := set_history cb
              (mkHistoryNode (from mv) (to mv) (moveType mv)
                             (get_pos cb (from mv)) (get_pos cb (to mv))
               :: history cb) in
  let cb := set_pos cb (to mv) promoteP in
  set_pos cb (from mv) P_EE.

(** [ChessBoard::undo].  The source keeps reading [hist] after
    [history.pop_back()]; the node's fields are read here as they were
    before the pop. *)
Definition undo (cb : ChessBoard) : ChessBoard :=
  match history cb with
  | [] => cb
  | hist :: rest =>
      let cb := set_pos cb (h_from hist) (h_fromP hist) in
      let cb := set_pos cb (h_to hist) (h_toP hist) in
      let cb := set_history cb rest in
      let fr := row (h_from hist) in
      let fc := col (h_from hist) in
      match h_moveType hist with
      | LONG_CASTLE =>
          let cb := set cb fr (fc - 4) (get cb fr (fc - 1)) in
          let cb := set cb fr (fc - 1) P_EE in
          reset_castle cb (get_side (h_fromP hist))
      | SHORT_CASTLE =>
          let cb := set cb fr (fc + 3) (get cb fr (fc + 1)) in
          let cb := set cb fr (fc + 1) P_EE in
          reset_castle cb (get_side (h_fromP hist))
      | EN_PASSANT =>
          let cb := set cb fr (col (h_to hist))
                        (if Side_eqb (get_side (h_fromP hist)) PS_UPPER
                         then P_DP else P_UP) in
          set_enPassantPos cb (mkPos fr (col (h_to hist)))
      | _ => cb
      end
  end.

Definition try_add_possible_move (cb : ChessBoard) (f t : Pos)
                                 (vec : list Move) : bool * list Move :=
  let fromP := get_pos cb f in
  let toP := get_pos cb t in
  match toP with
  | P_EO => (false, vec)
  | P_EE => (true, vec ++ [mkMove f t NORMAL])
  | _ =>
      if negb (Side_eqb (get_side fromP) (get_side toP))
      then (false, vec ++ [mkMove f t NORMAL])
      else (false, vec)
  end.

(** One unbounded scanning loop; a row of the array has 12 cells and
    the array 12 rows, and a cell outside them reads as [P_EO] here, so
    12 rounds are never used up. *)
Fixpoint scan_ray (fuel : nat) (cb : ChessBoard) (f : Pos) (dr dc rr cc : Z)
                  (vec : list Move) : list Move :=
  match fuel with
  | O => vec
  | S fuel' =>
      let '(go, vec') := try_add_possible_move cb f (mkPos rr cc) vec in
      if go then scan_ray fuel' cb f dr dc (rr + dr) (cc + dc) vec' else vec'
  end.

Definition ray_fuel : nat := 12.

Definition gen_crossing (cb : ChessBoard) (f : Pos) (vec : list Move)
  : list Move :=
  let vec := scan_ray ray_fuel cb f (-1) 0 (row f - 1) (col f) vec in
  let vec := scan_ray ray_fuel cb f 1 0 (row f + 1) (col f) vec in
  let vec := scan_ray ray_fuel cb f 0 (-1) (row f) (col f - 1) vec in
  scan_ray ray_fuel cb f 0 1 (row f) (col f + 1) vec.

Definition gen_diagonal (cb : ChessBoard) (f : Pos) (vec : list Move)
  : list Move :=
  let vec := scan_ray ray_fuel cb f (-1) (-1) (row f - 1) (col f - 1) vec in
  let vec := scan_ray ray_fuel cb f (-1) 1 (row f - 1) (col f + 1) vec in
  let vec := scan_ray ray_fuel cb f 1 (-1) (row f + 1) (col f - 1) vec in
  scan_ray ray_fuel cb f 1 1 (row f + 1) (col f + 1) vec.

Definition add_and_check_promote (f t : Pos) (canPromote : bool)
                                 (vec : list Move) : list Move :=
  if canPromote then vec ++ [mkMove f t GO_AND_PROMOTE]
  else vec ++ [mkMove f t NORMAL].

Definition gen_moves_pawn (cb : ChessBoard) (f : Pos) (vec : list Move)
  : list Move :=
  let fromP := get_pos cb f in
  let ep := get_en_passant_pos cb in
  match fromP with
  | P_UP =>
      let vec :=
        if row f =? row ep then
          if (col f + 1 =? col ep) || (col f - 1 =? col ep) then
            vec ++ [mkMove f (mkPos (row f + 1) (col (get_en_passant_pos cb)))
                           EN_PASSANT]
          else vec
        else vec in
      let vec :=
        match get cb (row f + 1) (col f) with
        | P_EE =>
            let vec :=
              if (row f =? UPPER_PAWN_BEGIN_ROW)
                 && Piece_eqb (get cb (row f + 2) (col f)) P_EE
              then vec ++ [mkMove f (mkPos (row f + 2) (col f)) PAWN_2_STEPS]
              else vec in
            add_and_check_promote f (mkPos (row f + 1) (col f))
                                  (row f + 1 =? UPPER_PAWN_PROMOTE_ROW) vec
        | _ => vec
        end in
      fold_left
        (fun vec c =>
           let p := get cb (row f + 1) c in
           let s := get_side p in
           if negb (Side_eqb s PS_EXTRA) && negb (Side_eqb s (get_side fromP))
           then add_and_check_promote f (mkPos (row f + 1) c)
                                      (row f + 1 =? UPPER_PAWN_PROMOTE_ROW) vec
           else vec)
        [col f + 1; col f - 1] vec
  | _ =>
      let vec :=
        if row f =? row ep then
          if (col f + 1 =? col ep) || (col f - 1 =? col ep) then
            vec ++ [mkMove f (mkPos (row f - 1) (col (get_en_passant_pos cb)))
                           EN_PASSANT]
          else vec
        else vec in
      let vec :=
        match get cb (row f - 1) (col f) with
        | P_EE =>
            let vec :=
              if (row f =? DOWN_PAWN_BEGIN_ROW)
                 && Piece_eqb (get cb (row f - 2) (col f)) P_EE
              then vec ++ [mkMove f (mkPos (row f - 2) (col f)) PAWN_2_STEPS]
              else vec in
            add_and_check_promote f (mkPos (row f - 1) (col f))
                                  (row f - 1 =? DOWN_PAWN_PROMOTE_ROW) vec
        | _ => vec
        end in
      fold_left
        (fun vec c =>
           let p := get cb (row f - 1) c in
           let s := get_side p in
           if negb (Side_eqb s PS_EXTRA) && negb (Side_eqb s (get_side fromP))
           then add_and_check_promote f (mkPos (row f - 1) c)
                                      (row f - 1 =? DOWN_PAWN_PROMOTE_ROW) vec
           else vec)
        [col f + 1; col f - 1] vec
  end.

Definition gen_moves_rook := gen_crossing.

Definition try_add (cb : ChessBoard) (f : Pos) (dr dc : Z) (vec : list Move)
  : list Move :=
  snd (try_add_possible_move cb f (mkPos (row f + dr) (col f + dc)) vec).

Definition gen_moves_knight (cb : ChessBoard) (f : Pos) (vec : list Move)
  : list Move :=
  let vec := try_add cb f 2 (-1) vec in
  let vec := try_add cb f 2 1 vec in
  let vec := try_add cb f 1 (-2) vec in
  let vec := try_add cb f 1 2 vec in
  let vec := try_add cb f (-1) (-2) vec in
  let vec := try_add cb f (-1) 2 vec in
  let vec := try_add cb f (-2) (-1) vec in
  try_add cb f (-2) 1 vec.

Definition gen_moves_bishop := gen_diagonal.

Definition gen_moves_queen (cb : ChessBoard) (f : Pos) (vec : list Move)
  : list Move :=
  gen_diagonal cb f (gen_crossing cb f vec).

Definition gen_moves_king (cb : ChessBoard) (f : Pos) (vec : list Move)
  : list Move :=
  let vec := try_add cb f 1 (-1) vec in
  let vec := try_add cb f 1 1 vec in
  let vec := try_add cb f 1 (-1) vec in
  let vec := try_add cb f 1 1 vec in
  let vec := try_add cb f (-1) (-1) vec in
  let vec := try_add cb f (-1) 1 vec in
  let vec := try_add cb f (-1) (-1) vec in
  let vec := try_add cb f (-1) 1 vec in
  let fromP := get_pos cb f in
  let fr := row f in
  let fc := col f in
  match get_side fromP with
  | PS_UPPER =>
      if can_upper_castle cb then
        let vec :=
          if Piece_eqb (get cb fr (fc + 1)) P_EE
             && Piece_eqb (get cb fr (fc + 2)) P_EE
             && Piece_eqb (get cb fr (fc + 3)) P_UR
          then vec ++ [mkMove f (mkPos fr (fc + 2)) SHORT_CASTLE] else vec in
        if Piece_eqb (get cb fr (fc - 1)) P_EE
           && Piece_eqb (get cb fr (fc - 2)) P_EE
           && Piece_eqb (get cb fr (fc - 3)) P_EE
           && Piece_eqb (get cb fr (fc - 4)) P_UR
        then vec ++ [mkMove f (mkPos fr (fc - 2)) LONG_CASTLE] else vec
      else vec
  | PS_DOWN =>
      if can_down_castle cb then
        let vec :=
          if Piece_eqb (get cb fr (fc + 1)) P_EE
             && Piece_eqb (get cb fr (fc + 2)) P_EE
             && Piece_eqb (get cb fr (fc + 3)) P_DR
          then vec ++ [mkMove f (mkPos fr (fc + 2)) SHORT_CASTLE] else vec in
        if Piece_eqb (get cb fr (fc - 1)) P_EE
           && Piece_eqb (get cb fr (fc - 2)) P_EE
           && Piece_eqb (get cb fr (fc - 3)) P_EE
           && Piece_eqb (get cb fr (fc - 4)) P_DR
        then vec ++ [mkMove f (mkPos fr (fc - 2)) LONG_CASTLE] else vec
      else vec
  | PS_EXTRA => vec
  end.

(** The values of [r] (and of [c]) in
    [for (r = LINE_BEGIN; r < LINE_END; ++r)]. *)
Definition lines : list Z :=
  map (fun k => LINE_BEGIN + Z.of_nat k)
      (seq 0 (Z.to_nat (LINE_END - LINE_BEGIN))).

Definition gen_moves_at (cb : ChessBoard) (s : Side) (r c : Z)
                        (vec : list Move) : list Move :=
  let p := get cb r c in
  if Side_eqb (get_side p) s then
    match get_type p with
    | PT_PAWN => gen_moves_pawn cb (mkPos r c) vec
    | PT_ROOK => gen_moves_rook cb (mkPos r c) vec
    | PT_KNIGHT => gen_moves_knight cb (mkPos r c) vec
    | PT_BISHOP => gen_moves_bishop cb (mkPos r c) vec
    | PT_QUEEN => gen_moves_queen cb (mkPos r c) vec
    | PT_KING => gen_moves_king cb (mkPos r c) vec
    | _ => vec
    end
  else vec.

Definition gen_one_side_moves (cb : ChessBoard) (s : Side) : list Move :=
  fold_left
    (fun vec r => fold_left (fun vec c => gen_moves_at cb s r c vec) lines vec)
    lines [].

(** Modelled from the spec: the board file [res/default_board.txt] that
    the constructor reads is not part of the sources; the spec says the
    board is "constructed once from a fixed initial layout", and the
    layout taken here is the one [Board::reset] of the C++20 engine
    spells out. *)
Definition default_data : BoardData :=
  let o := P_EO in
  let e := P_EE in
  [ [o; o; o; o; o; o; o; o; o; o; o; o];
    [o; o; o; o; o; o; o; o; o; o; o; o];
    [o; o; P_UR; P_UN; P_UB; P_UQ; P_UK; P_UB; P_UN; P_UR; o; o];
    [o; o; P_UP; P_UP; P_UP; P_UP; P_UP; P_UP; P_UP; P_UP; o; o];
    [o; o; e; e; e; e; e; e; e; e; o; o];
    [o; o; e; e; e; e; e; e; e; e; o; o];
    [o; o; e; e; e; e; e; e; e; e; o; o];
    [o; o; e; e; e; e; e; e; e; e; o; o];
    [o; o; P_DP; P_DP; P_DP; P_DP; P_DP; P_DP; P_DP; P_DP; o; o];
    [o; o; P_DR; P_DN; P_DB; P_DQ; P_DK; P_DB; P_DN; P_DR; o; o];
    [o; o; o; o; o; o; o; o; o; o; o; o];
    [o; o; o; o; o; o; o; o; o; o; o; o] ].

(** The state the constructor leaves. *)
Definition new_board : ChessBoard :=
  mkChessBoard default_data [] true true (mkPos 0 0).

End Legacy.

(** ** Predicates used in the statements *)

Module ElysiaProps.
Import Elysia.

Definition can_short_castle (b : Board) (s : Side) : bool :=
  if Side_eqb s upper then can_upper_short_castle b
  else can_down_short_castle b.

Definition can_long_castle (b : Board) (s : Side) : bool :=
  if Side_eqb s upper then can_upper_long_castle b
  else can_down_long_castle b.

(** The destination of [mv] is on the board and does not hold a piece of
    side [s]. *)
Definition dest_ok (b : Board) (s : Side) (mv : Move) : Prop :=
  get_pos b (to mv) <> P_EO /\ piece_side (get_pos b (to mv)) <> s.

(** What the generator guarantees of every move it emits for side [s] on
    board [b], by kind. *)
Definition gen_spec (b : Board) (s : Side) (mv : Move) : Prop :=
  piece_side (get_pos b (from mv)) = s /\
  In (row (from mv)) lines /\ In (col (from mv)) lines /\
  match moveType mv with
  | invalid => False
  | en_passant => has_chance_to_do_en_passant b = true
  | short_castling =>
      can_short_castle b s = true /\ piece_type (get_pos b (from mv)) = king
  | long_castling =>
      can_long_castle b s = true /\ piece_type (get_pos b (from mv)) = king
  | normal | pawn_move_and_promote | pawn_2_steps => dest_ok b s mv
  end.

Definition castle_flag (b : Board) (s : Side) : bool :=
  if Side_eqb s upper then get_upper_castle_flag b else get_down_castle_flag b.

(** The row of the king's and rooks' origin squares. *)
Definition home_row (s : Side) : Z := if Side_eqb s upper then 2 else 9.

Definition rook_of (s : Side) : Piece := if Side_eqb s upper then P_UR else P_DR.

Definition king_of (s : Side) : Piece := if Side_eqb s upper then P_UK else P_DK.

(** The king's origin square is column 6 of the home row (cells 30 and
    114 of the buffer); the rooks' are columns 9 and 2. *)
Definition king_home_col : Z := 6.

(** The eight neighbours of a square, in the order [king_steps] visits
    them. *)
Definition king_offsets : list (Z * Z) :=
  [(-1, -1); (-1, 0); (-1, 1); (0, -1); (0, 1); (1, -1); (1, 0); (1, 1)].

(** The castling moves [king_steps] appends for the king on [f]. *)
Definition castling_moves (b : Board) (f : Pos) : list Move :=
  let s := piece_side (get_pos b f) in
  (if can_short_castle b s
   then [Move3 f (mkPos (row f) (col f + 2)) short_castling] else [])
  ++ (if can_long_castle b s
      then [Move3 f (mkPos (row f) (col f - 2)) long_castling] else []).

(** Row and column are inside the 8 x 8 range. *)
Definition playable (p : Pos) : Prop :=
  line_begin <= row p <= line_end /\ line_begin <= col p <= line_end.

(** Row and column are inside the 12 x 12 grid. *)
Definition in_grid (r c : Z) : Prop := 0 <= r <= 11 /\ 0 <= c <= 11.

(** A move that starts inside the 8 x 8 range and ends inside the grid,
    as every generated move does. *)
Definition on_board (mv : Move) : Prop :=
  playable (from mv) /\ in_grid (row (to mv)) (col (to mv)).

(** Every cell of the 12 x 12 grid outside the 8 x 8 range holds the
    off-board piece. *)
Definition border_holds (b : Board) : bool :=
  forallb
    (fun r =>
       forallb
         (fun c =>
            ((line_begin <=? r) && (r <=? line_end)
             && (line_begin <=? c) && (c <=? line_end))
            || Ascii.eqb (get b r c) P_EO)
         (map Z.of_nat (seq 0 12)))
    (map Z.of_nat (seq 0 12)).

(** The buffer has its 144 cells and 4 state characters. *)
Definition well_sized (b : Board) : Prop := length (data b) = 148%nat.

(** The outermost rows and columns hold the off-board piece, and rows 1
    and 10 hold no empty cell: what stops every scan. *)
Definition ring_holds (b : Board) : Prop :=
  forall r c, in_grid r c ->
    (r = 0 \/ r = 11 \/ c = 0 \/ c = 11 -> get b r c = P_EO)
    /\ (r = 1 \/ r = 10 -> get b r c <> P_EE).

(** [ring_holds], decided cell by cell. *)
Definition ring_check (b : Board) : bool :=
  let idx := map Z.of_nat (seq 0 12) in
  forallb
    (fun r =>
       forallb
         (fun c =>
            implb ((r =? 0) || (r =? 11) || (c =? 0) || (c =? 11))
                  (Ascii.eqb (get b r c) P_EO)
            && implb ((r =? 1) || (r =? 10))
                     (negb (Ascii.eqb (get b r c) P_EE)))
         idx)
    idx.

(** Within the 8 x 8 range the king of side [s] stands nowhere but on
    its origin square. *)
Definition king_only_at_home (b : Board) (s : Side) : Prop :=
  forall r c, In r lines -> In c lines -> get b r c = king_of s ->
              r = home_row s /\ c = king_home_col.

(** The state invariant behind castling: a side that may still castle
    has its king on the origin square. *)
Definition sound (b : Board) : Prop :=
  well_sized b /\ ring_holds b
  /\ (castle_flag b upper = true -> king_only_at_home b upper)
  /\ (castle_flag b down = true -> king_only_at_home b down).

(** The pieces [pawn_add_and_check_promote] offers. *)
Definition promotion_piece (p : Piece) : bool :=
  is_one_of p [P_UR; P_UN; P_UB; P_UQ; P_DR; P_DN; P_DB; P_DQ].

(** Where a generated move can lead, relative to its origin. *)
Definition gen_reach (mv : Move) : Prop :=
  in_grid (row (to mv)) (col (to mv))
  /\ match moveType mv with
     | pawn_move_and_promote => promotion_piece (promoteP mv) = true
     | en_passant =>
         (row (to mv) = row (from mv) + 1 \/ row (to mv) = row (from mv) - 1)
         /\ (col (to mv) = col (from mv) + 1 \/ col (to mv) = col (from mv) - 1)
     | short_castling =>
         row (to mv) = row (from mv) /\ col (to mv) = col (from mv) + 2
     | long_castling =>
         row (to mv) = row (from mv) /\ col (to mv) = col (from mv) - 2
     | _ => True
     end.

(** The boards the game can be in: the initial position and what moves
    emitted by the generator, for either side, lead to. *)
Inductive reachable : Board -> Prop :=
  | reachable_reset : reachable reset
  | reachable_move (b : Board) (s : Side) (mv : Move) :
      reachable b -> s <> extra -> In mv (gen_moves_for_one_side b s) ->
      reachable (move b mv).

End ElysiaProps.

(** ** Value-level reading of the search

    The loops of the search with the board taken out: a child position
    is a function from the window to a value.  They are what the
    state-passing functions compute once [undo] is known to restore the
    board, and [minimax] is plain minimax as the specification words
    it. *)

Module SearchModel.
Import Elysia.

Fixpoint fold_max (prune : bool) (children : list (Z -> Z -> Z))
                  (bestVal alpha beta : Z) : Z :=
  match children with
  | [] => bestVal
  | c :: rest =>
      let bestVal := Z.max bestVal (c alpha beta) in
      let alpha := Z.max alpha bestVal in
      if prune && (alpha >=? beta) then bestVal
      else fold_max prune rest bestVal alpha beta
  end.

Fixpoint fold_min (prune : bool) (children : list (Z -> Z -> Z))
                  (bestVal alpha beta : Z) : Z :=
  match children with
  | [] => bestVal
  | c :: rest =>
      let bestVal := Z.min bestVal (c alpha beta) in
      let beta := Z.min beta bestVal in
      if prune && (alpha >=? beta) then bestVal
      else fold_min prune rest bestVal alpha beta
  end.

Section Values.

Variable piece_value : Piece -> Z.
Variable piece_pos_value : Piece -> Z -> Z -> Z.

(** Plain minimax: at depth 0 the static evaluation; otherwise the
    maximum (for the down side) or minimum (for the upper side) over all
    generated moves of the value one ply deeper, starting from the
    sentinel. *)
Fixpoint minimax (depth : nat) (b : Board) (maximizing : bool) : Z :=
  match depth with
  | O => evaluate piece_value piece_pos_value b
  | S d =>
      if maximizing then
        fold_left Z.max
          (map (fun mv => minimax d (move b mv) false)
               (gen_moves_for_one_side b down))
          LOWER_BOUND
      else
        fold_left Z.min
          (map (fun mv => minimax d (move b mv) true)
               (gen_moves_for_one_side b upper))
          UPPER_BOUND
  end.

(** The value [min_max] returns. *)
Definition value (prune : bool) (d : nat) (b : Board) (alpha beta : Z)
                 (isMax : bool) : Z :=
  fst (min_max_with piece_value piece_pos_value prune d b alpha beta isMax).

(** The value the root search computes for one candidate. *)
Definition root_value (d : nat) (b : Board) (isMax : bool) (mv : Move) : Z :=
  value true d (move b mv) LOWER_BOUND UPPER_BOUND isMax.

End Values.

(** The root loop as a left fold: [better v best] is [v <= best] for the
    upper side and [v >= best] for the down side. *)
Definition scan_step (better : Z -> Z -> bool) (val : Move -> Z)
                     (acc : Z * Move) (mv : Move) : Z * Move :=
  if better (val mv) (fst acc) then (val mv, mv) else acc.

Definition scan (better : Z -> Z -> bool) (val : Move -> Z)
                (moves : list Move) (acc : Z * Move) : Z * Move :=
  fold_left (scan_step better val) moves acc.

(** One round of the reduction over the per-chunk results. *)
Definition combine_best (better : Z -> Z -> bool) (r acc : Z * Move)
  : Z * Move :=
  if better (fst r) (fst acc) then r else acc.

(** How a value [v] returned for the window [(alpha, beta)] relates to
    the plain minimax value [m]: exact inside the window, a bound on the
    right side outside of it. *)
Definition agrees (v m alpha beta : Z) : Prop :=
  (v <= alpha -> m <= v) /\ (alpha < v < beta -> v = m) /\ (beta <= v -> v <= m).

End SearchModel.

(** ** Sequences of moves and concrete positions *)

Module Samples.
Import Elysia.

(** The board after a sequence of [Board::move] calls. *)
Definition play (b : Board) (ms : list Move) : Board := fold_left move ms b.

Definition other (s : Side) : Side :=
  match s with upper => down | down => upper | extra => extra end.

(** Equality of all four fields (unlike [Move_eqb]). *)
Definition Move_same (a b : Move) : bool :=
  Pos_eqb (from a) (from b) && Pos_eqb (to a) (to b)
  && MoveType_eqb (moveType a) (moveType b)
  && Ascii.eqb (promoteP a) (promoteP b).

(** Every move of [ms] is in the list the generator returns for the side
    to move, the sides alternating from [s]. *)
Fixpoint generated_line (b : Board) (s : Side) (ms : list Move) : bool :=
  match ms with
  | [] => true
  | mv :: rest =>
      existsb (Move_same mv) (gen_moves_for_one_side b s)
      && generated_line (move b mv) (other s) rest
  end.

Definition mv (r1 c1 r2 c2 : Z) (k : MoveType) : Move :=
  Move3 (mkPos r1 c1) (mkPos r2 c2) k.

(** Twelve half-moves from the initial position, the down side (the
    user) first: the g-pawn of the down side walks to the rank of the
    upper pawns and captures the h-pawn, the h-pawn of the down side
    advances to row 5, the upper side shuffles a knight, and finally the
    upper g-pawn makes its double step next to the intruding pawn. *)
Definition line_double_step : list Move :=
  [ mv 8 7 6 7 pawn_2_steps; mv 2 3 4 2 normal;
    mv 6 7 5 7 normal;       mv 4 2 2 3 normal;
    mv 5 7 4 7 normal;       mv 2 3 4 2 normal;
    mv 4 7 3 8 normal;       mv 4 2 2 3 normal;
    mv 8 9 6 9 pawn_2_steps; mv 2 3 4 2 normal;
    mv 6 9 5 9 normal;       mv 3 7 5 7 pawn_2_steps ].

Definition after_double_step : Board := play reset line_double_step.

(** Three half-moves after which a pawn of the down side stands on row 5
    next to the square an upper pawn reaches by a double step. *)
Definition line_beside : list Move :=
  [ mv 8 4 6 4 pawn_2_steps; mv 2 3 4 2 normal; mv 6 4 5 4 normal ].

Definition beside : Board := play reset line_beside.

(** A position in which both sides have their castling squares clear. *)
Definition castle_ready : Board :=
  mkBoard
    (list_ascii_of_string
       ("############" ++
        "############" ++
        "##R...K..R##" ++
        "##PPPPPPPP##" ++
        "##........##" ++
        "##........##" ++
        "##........##" ++
        "##........##" ++
        "##pppppppp##" ++
        "##r...k..r##" ++
        "############" ++
        "############" ++
        "1100")%string)
    [].

(** Weight tables.  [material] is a usual material table, positive for
    the down side; [flat] gives no positional bonus. *)
Definition material (p : Piece) : Z :=
  if Ascii.eqb p P_UP then -100 else if Ascii.eqb p P_DP then 100
  else if Ascii.eqb p P_UN then -300 else if Ascii.eqb p P_DN then 300
  else if Ascii.eqb p P_UB then -300 else if Ascii.eqb p P_DB then 300
  else if Ascii.eqb p P_UR then -500 else if Ascii.eqb p P_DR then 500
  else if Ascii.eqb p P_UQ then -900 else if Ascii.eqb p P_DQ then 900
  else if Ascii.eqb p P_UK then -10000 else if Ascii.eqb p P_DK then 10000
  else 0.

Definition flat (p : Piece) (r c : Z) : Z := 0.

Definition no_material (p : Piece) : Z := 0.

(** A positional table for the down pawn with two entries beyond the
    upper sentinel. *)
Definition steep (p : Piece) (r c : Z) : Z :=
  if Ascii.eqb p P_DP then
    if (r =? 6) && (c =? 2) then 6000000
    else if (r =? 7) && (c =? 2) then 7000000
    else 0
  else 0.

(** A positional table for the down pawn with one entry on the lower
    sentinel and two below it. *)
Definition sunk (p : Piece) (r c : Z) : Z :=
  if Ascii.eqb p P_DP then
    if (r =? 6) && (c =? 2) then -5000000
    else if ((r =? 7) || (r =? 8)) && (c =? 2) then -6000000
    else 0
  else 0.

(** A board on which the down side has no piece left. *)
Definition no_down_piece : Board :=
  mkBoard
    (list_ascii_of_string
       ("############" ++
        "############" ++
        "##....K...##" ++
        "##........##" ++
        "##........##" ++
        "##........##" ++
        "##........##" ++
        "##........##" ++
        "##........##" ++
        "##........##" ++
        "############" ++
        "############" ++
        "0000")%string)
    [].

End Samples.

Module LegacySamples.
Import Legacy.

Definition play (cb : ChessBoard) (ms : list Move) : ChessBoard :=
  fold_left move ms cb.

(** The upper g-pawn steps forward; the upper king then steps onto the
    square the pawn left. *)
Definition pawn_step : Move := mkMove (mkPos 3 7) (mkPos 4 7) NORMAL.
Definition king_step : Move := mkMove (mkPos 2 6) (mkPos 3 7) NORMAL.

Definition before_king_step : ChessBoard := move new_board pawn_step.

Definition empty_row : list Piece :=
  [P_EO; P_EO; P_EE; P_EE; P_EE; P_EE; P_EE; P_EE; P_EE; P_EE; P_EO; P_EO].

Definition border_row : list Piece :=
  [P_EO; P_EO; P_EO; P_EO; P_EO; P_EO; P_EO; P_EO; P_EO; P_EO; P_EO; P_EO].

(** The upper king alone in the middle of the board, castling rights
    gone. *)
Definition lone_king : ChessBoard :=
  mkChessBoard
    [ border_row; border_row;
      empty_row; empty_row; empty_row;
      [P_EO; P_EO; P_EE; P_EE; P_EE; P_UK; P_EE; P_EE; P_EE; P_EE; P_EO; P_EO];
      empty_row; empty_row; empty_row; empty_row;
      border_row; border_row ]
    [] false false (mkPos 0 0).

End LegacySamples.

(** ** The console game of the C++20 file, [class Game] *)

Module ElysiaGame.
Import Elysia.

(** [input[k]] of a [std::string]: the character at [k], and the
    terminating null character at [k = input.size()]. *)
Definition char_at (input : string) (k : nat) : ascii :=
  match String.get k input with
  | Some ch => ch
  | None => zero
  end.

(** [Game::is_input_a_move]. *)
Definition is_input_a_move (input : string) : bool :=
  if (String.length input <? 4)%nat then false
  else
    ((int_of_char (char_at input 0) >=? int_of_char "a")
     && (int_of_char (char_at input 0) <=? int_of_char "h"))
    && ((int_of_char (char_at input 1) >=? int_of_char "1")
        && (int_of_char (char_at input 1) <=? int_of_char "8"))
    && ((int_of_char (char_at input 2) >=? int_of_char "a")
        && (int_of_char (char_at input 2) <=? int_of_char "h"))
    && ((int_of_char (char_at input 3) >=? int_of_char "1")
        && (int_of_char (char_at input 3) <=? int_of_char "8")).

(** [Game::desc_move]: four [desc += static_cast<char>(...)]. *)
Definition desc_move (mv : Move) : string :=
  String (char_of_int (col (from mv) - line_begin + int_of_char "a"))
   (String (char_of_int (8 - (row (from mv) - line_begin) + int_of_char "0"))
     (String (char_of_int (col (to mv) - line_begin + int_of_char "a"))
       (String (char_of_int (8 - (row (to mv) - line_begin) + int_of_char "0"))
               EmptyString))).

(** [Game::is_win]: the two flags the double loop leaves, then the
    verdict. *)
Definition kings_alive (b : Board) : bool * bool :=
  fold_left
    (fun alive r =>
       fold_left
         (fun '(upper_king_alive, down_king_alive) c =>
            let p := get b r c in
            if Ascii.eqb p P_UK then (true, down_king_alive)
            else if Ascii.eqb p P_DK then (upper_king_alive, true)
            else (upper_king_alive, down_king_alive))
         lines alive)
    lines (false, false).

Definition is_win (b : Board) (s : Side) : bool :=
  let '(upper_king_alive, down_king_alive) := kings_alive b in
  if upper_king_alive && down_king_alive then false
  else if Side_eqb s upper then upper_king_alive else down_king_alive.

(** [Game::ask_for_promotion].  [stdin] is the list of the lines that
    [std::getline] will deliver; an answer that is none of the four words
    is asked again, and the loop has no other exit: [None] stands for a
    run that never returns because the input ends first. *)
Fixpoint ask_for_promotion (userSide : Side) (stdin : list string)
  : option (Piece * list string) :=
  match stdin with
  | [] => None
  | input :: rest =>
      if String.eqb input "rook" then
        Some (if Side_eqb userSide upper then P_UR else P_DR, rest)
      else if String.eqb input "knight" then
        Some (if Side_eqb userSide upper then P_UN else P_DN, rest)
      else if String.eqb input "bishop" then
        Some (if Side_eqb userSide upper then P_UB else P_DB, rest)
      else if String.eqb input "queen" then
        Some (if Side_eqb userSide upper then P_UQ else P_DQ, rest)
      else ask_for_promotion userSide rest
  end.

(** The squares [Game::input_to_move] reads off the input. *)
Definition input_squares (input : string) : Pos * Pos :=
  (mkPos (line_begin + int_of_char "8" - int_of_char (char_at input 1))
         (line_begin + int_of_char (char_at input 0) - int_of_char "a"),
   mkPos (line_begin + int_of_char "8" - int_of_char (char_at input 3))
         (line_begin + int_of_char (char_at input 2) - int_of_char "a")).

(** [Game::input_to_move]; [std::find] compares with [Move::operator==],
    which looks at the two squares only.  The result comes with what is
    left of the input lines. *)
Definition input_to_move (b : Board) (userSide : Side) (input : string)
                         (stdin : list string)
  : option (Move * list string) :=
  let '(f, t) := input_squares input in
  let mv := mkMove f t invalid P_EO in
  let moves := gen_moves_for_one_side b userSide in
  match find (fun m => Move_eqb m mv) moves with
  | None => Some (mkMove f t invalid P_EO, stdin)
  | Some found =>
      if MoveType_eqb (moveType found) pawn_move_and_promote then
        match piece_type (get_pos b t) with
        | king => Some (mkMove f t (moveType found) P_EO, stdin)
        | _ =>
            match ask_for_promotion userSide stdin with
            | Some (p, rest) => Some (mkMove f t (moveType found) p, rest)
            | None => None
            end
        end
      else Some (mkMove f t (moveType found) P_EO, stdin)
  end.

End ElysiaGame.

(** ** The console program of the C++14 file *)

Module LegacyGame.
Import Legacy.

Definition piece_str_mapping : list string :=
  ["P"; "R"; "N"; "B"; "Q"; "K"; "p"; "r"; "n"; "b"; "q"; "k"; "."; "#"]%string.

(** The enumerators of [Piece] in the order of their values 0 to 13, and
    [static_cast<uint32_t>(p)]. *)
Definition pieces : list Piece :=
  [P_UP; P_UR; P_UN; P_UB; P_UQ; P_UK; P_DP; P_DR; P_DN; P_DB; P_DQ; P_DK;
   P_EE; P_EO].

Definition piece_index (p : Piece) : nat :=
  match p with
  | P_UP => 0 | P_UR => 1 | P_UN => 2 | P_UB => 3 | P_UQ => 4 | P_UK => 5
  | P_DP => 6 | P_DR => 7 | P_DN => 8 | P_DB => 9 | P_DQ => 10 | P_DK => 11
  | P_EE => 12 | P_EO => 13
  end.

(** [get_str]. *)
Definition get_str (p : Piece) : string :=
  nth (piece_index p) piece_str_mapping EmptyString.

(** [str_to_piece]: the first index whose string equals [str]; [None] is
    the [std::runtime_error] thrown when there is none. *)
Fixpoint str_to_piece_from (str : string) (strs : list string)
                           (ps : list Piece) : option Piece :=
  match strs, ps with
  | s :: strs', p :: ps' =>
      if String.eqb str s then Some p else str_to_piece_from str strs' ps'
  | _, _ => None
  end.

Definition str_to_piece (str : string) : option Piece :=
  str_to_piece_from str piece_str_mapping pieces.

Definition char_at (input : string) (k : nat) : ascii :=
  match String.get k input with
  | Some ch => ch
  | None => zero
  end.

(** [input_is_move]. *)
Definition input_is_move (input : string) : bool :=
  if (String.length input <? 4)%nat then false
  else
    ((Elysia.int_of_char (char_at input 0) >=? Elysia.int_of_char "a")
     && (Elysia.int_of_char (char_at input 0) <=? Elysia.int_of_char "h"))
    && ((Elysia.int_of_char (char_at input 1) >=? Elysia.int_of_char "1")
        && (Elysia.int_of_char (char_at input 1) <=? Elysia.int_of_char "8"))
    && ((Elysia.int_of_char (char_at input 2) >=? Elysia.int_of_char "a")
        && (Elysia.int_of_char (char_at input 2) <=? Elysia.int_of_char "h"))
    && ((Elysia.int_of_char (char_at input 3) >=? Elysia.int_of_char "1")
        && (Elysia.int_of_char (char_at input 3) <=? Elysia.int_of_char "8")).

(** [input_to_move]; the default [Move] has the kind [INVALID]. *)
Definition input_to_move (input : string) : Move :=
  mkMove
    (mkPos (LINE_BEGIN + Elysia.int_of_char "8"
            - Elysia.int_of_char (char_at input 1))
           (LINE_BEGIN + Elysia.int_of_char (char_at input 0)
            - Elysia.int_of_char "a"))
    (mkPos (LINE_BEGIN + Elysia.int_of_char "8"
            - Elysia.int_of_char (char_at input 3))
           (LINE_BEGIN + Elysia.int_of_char (char_at input 2)
            - Elysia.int_of_char "a"))
    INVALID.

(** [move_to_str]. *)
Definition move_to_str (mv : Move) : string :=
  String (Elysia.char_of_int (col (from mv) - LINE_BEGIN + Elysia.int_of_char "a"))
   (String (Elysia.char_of_int
              (8 - (row (from mv) - LINE_BEGIN) + Elysia.int_of_char "0"))
     (String (Elysia.char_of_int
                (col (to mv) - LINE_BEGIN + Elysia.int_of_char "a"))
       (String (Elysia.char_of_int
                  (8 - (row (to mv) - LINE_BEGIN) + Elysia.int_of_char "0"))
               EmptyString))).

(** [is_this_your_piece]. *)
Definition is_this_your_piece (cb : ChessBoard) (mv : Move) (s : Side) : bool :=
  Side_eqb (get_side (get_pos cb (from mv))) s.

(** [gen_one_position_moves]. *)
Definition gen_one_position_moves (cb : ChessBoard) (f : Pos) : list Move :=
  match get_type (get_pos cb f) with
  | PT_PAWN => gen_moves_pawn cb f []
  | PT_ROOK => gen_moves_rook cb f []
  | PT_KNIGHT => gen_moves_knight cb f []
  | PT_BISHOP => gen_moves_bishop cb f []
  | PT_QUEEN => gen_moves_queen cb f []
  | PT_KING => gen_moves_king cb f []
  | _ => []
  end.

Definition Pos_eqb (a b : Pos) : bool :=
  (row a =? row b) && (col a =? col b).

(** [Move::operator==], which leaves the kind out. *)
Definition Move_eqb (a b : Move) : bool :=
  Pos_eqb (from a) (from b) && Pos_eqb (to a) (to b).

(** [check_rule]: the verdict and the move with the kind it is given. *)
Definition check_rule (cb : ChessBoard) (mv : Move) : bool * Move :=
  match find (fun m => Move_eqb m mv) (gen_one_position_moves cb (from mv)) with
  | Some found => (true, mkMove (from mv) (to mv) (moveType found))
  | None => (false, mkMove (from mv) (to mv) INVALID)
  end.

(** [check_winner]. *)
Definition kings_found (cb : ChessBoard) : bool * bool :=
  fold_left
    (fun found r =>
       fold_left
         (fun '(findUpperKing, findDownKing) c =>
            match get cb r c with
            | P_UK => (true, findDownKing)
            | P_DK => (findUpperKing, true)
            | _ => (findUpperKing, findDownKing)
            end)
         lines found)
    lines (false, false).

Definition check_winner (cb : ChessBoard) : Side :=
  let '(findUpperKing, findDownKing) := kings_found cb in
  if findUpperKing && findDownKing then PS_EXTRA
  else if findUpperKing then PS_UPPER else PS_DOWN.

End LegacyGame.

(** * Proofs *)

(** ** Buffers *)

Section BufferFacts.
Context {A : Type}.

Lemma update_nat_length (d : list A) n x :
  length (update_nat d n x) = length d.
Proof.
  revert n; induction d as [|h t IH]; intros [|n]; simpl; auto.
Qed.

Lemma nth_update_nat (d : list A) n m x dflt :
  nth m (update_nat d n x) dflt =
  if (Nat.eqb n m && Nat.ltb n (length d))%bool then x else nth m d dflt.
Proof.
  revert n m; induction d as [|h t IH]; intros [|n] [|m]; simpl; auto;
    try (now rewrite andb_false_r).
Qed.

Lemma update_Z_length (d : list A) i x :
  length (update_Z d i x) = length d.
Proof.
  unfold update_Z. destruct (i <? 0); auto using update_nat_length.
Qed.

Lemma nth_update_Z_same (d : list A) i x dflt :
  0 <= i < Z.of_nat (length d) ->
  nth_Z (update_Z d i x) i dflt = x.
Proof.
  intros Hi. unfold nth_Z, update_Z.
  destruct (Z.ltb_spec i 0); [lia|].
  rewrite nth_update_nat, Nat.eqb_refl. simpl.
  destruct (Nat.ltb_spec (Z.to_nat i) (length d)); [reflexivity | lia].
Qed.

Lemma nth_update_Z_other (d : list A) i j x dflt :
  i <> j ->
  nth_Z (update_Z d i x) j dflt = nth_Z d j dflt.
Proof.
  intros Hij. unfold nth_Z, update_Z.
  destruct (Z.ltb_spec j 0); [reflexivity|].
  destruct (Z.ltb_spec i 0); [reflexivity|].
  rewrite nth_update_nat.
  destruct (Nat.eqb_spec (Z.to_nat i) (Z.to_nat j)); [lia | reflexivity].
Qed.
End BufferFacts.

(** ** The C++20 engine *)

Module ElysiaProofs.
Import Elysia ElysiaProps.

Lemma Side_eqb_spec a b : reflect (a = b) (Side_eqb a b).
Proof. destruct a, b; simpl; constructor; congruence. Qed.

Lemma MoveType_eqb_spec a b : reflect (a = b) (MoveType_eqb a b).
Proof. destruct a, b; simpl; constructor; congruence. Qed.

Lemma Forall_snoc {A} (P : A -> Prop) (l : list A) (x : A) :
  Forall P l -> P x -> Forall P (l ++ [x]).
Proof. intros Hl Hx. apply Forall_app. split; auto. Qed.

(** *** move and undo *)

Ltac case_ifs :=
  repeat match goal with
         | |- context [if ?c then _ else _] => destruct c
         end.

Lemma history_move (b : Board) (mv : Move) :
  moveType mv <> invalid -> history (move b mv) = data b :: history b.
Proof.
  intros H. unfold move.
  destruct (moveType mv); try congruence; simpl; case_ifs; reflexivity.
Qed.

Lemma undo_move (b : Board) (mv : Move) :
  moveType mv <> invalid -> undo (move b mv) = b.
Proof.
  intros H. unfold undo. rewrite history_move by assumption.
  destruct b; reflexivity.
Qed.

(** *** Pieces *)

Lemma piece_side_extra_type (p : Piece) :
  piece_side p = extra -> piece_type p = empty \/ piece_type p = out.
Proof.
  unfold piece_side, piece_type, is_one_of, existsb.
  repeat match goal with
         | |- context [Ascii.eqb p ?c] =>
             destruct (Ascii.eqb_spec p c); [subst p; simpl; try discriminate |]
         end; simpl; auto.
Qed.

Lemma piece_side_P_EE : piece_side P_EE = extra.
Proof. reflexivity. Qed.

Lemma piece_side_P_EO : piece_side P_EO = extra.
Proof. reflexivity. Qed.

(** *** What the generator emits *)

Section Generator.

Variable b : Board.
Variable s : Side.
Hypothesis s_side : s <> extra.

Variable f : Pos.
Hypothesis f_side : piece_side (get_pos b f) = s.
Hypothesis f_row : In (row f) lines.
Hypothesis f_col : In (col f) lines.

Lemma dest_ok_empty (t : Pos) (k : MoveType) (p : Piece) :
  get_pos b t = P_EE -> dest_ok b s (mkMove f t k p).
Proof.
  intros E. unfold dest_ok; simpl. rewrite E. split; [discriminate|].
  rewrite piece_side_P_EE. congruence.
Qed.

Lemma dest_ok_enemy (t : Pos) (k : MoveType) (p : Piece) :
  piece_side (get_pos b t) <> extra ->
  piece_side (get_pos b t) <> piece_side (get_pos b f) ->
  dest_ok b s (mkMove f t k p).
Proof.
  intros E1 E2. unfold dest_ok; simpl. split.
  - intros E. apply E1. rewrite E. reflexivity.
  - congruence.
Qed.

Lemma gen_spec_plain (t : Pos) (k : MoveType) (p : Piece) :
  k = normal \/ k = pawn_move_and_promote \/ k = pawn_2_steps ->
  dest_ok b s (mkMove f t k p) -> gen_spec b s (mkMove f t k p).
Proof.
  intros Hk Hd. unfold gen_spec; simpl. repeat split; auto.
  destruct Hk as [-> | [-> | ->]]; exact Hd.
Qed.

Lemma try_add_possible_move_spec (t : Pos) (vec : list Move) :
  Forall (gen_spec b s) vec ->
  Forall (gen_spec b s) (snd (try_add_possible_move b f t vec)).
Proof.
  intros Hv. unfold try_add_possible_move.
  destruct (Ascii.eqb_spec (get_pos b t) P_EO) as [|Ho]; simpl; auto.
  destruct (Ascii.eqb_spec (get_pos b t) P_EE) as [Ee|Hne]; simpl.
  - apply Forall_snoc; auto. apply gen_spec_plain; auto.
    now apply dest_ok_empty.
  - destruct (Side_eqb_spec (piece_side (get_pos b f))
                            (piece_side (get_pos b t))) as [Es|Hs]; simpl; auto.
    apply Forall_snoc; auto. apply gen_spec_plain; auto.
    unfold dest_ok; simpl. split; auto. congruence.
Qed.

Lemma try_add_spec (dr dc : Z) (vec : list Move) :
  Forall (gen_spec b s) vec -> Forall (gen_spec b s) (try_add b f dr dc vec).
Proof. apply try_add_possible_move_spec. Qed.

Lemma scan_ray_spec (fuel : nat) (dr dc rr cc : Z) (vec : list Move) :
  Forall (gen_spec b s) vec ->
  Forall (gen_spec b s) (scan_ray fuel b f dr dc rr cc vec).
Proof.
  revert rr cc vec. induction fuel as [|fuel IH]; intros rr cc vec Hv; simpl; auto.
  pose proof (try_add_possible_move_spec (mkPos rr cc) vec Hv) as H.
  destruct (try_add_possible_move b f (mkPos rr cc) vec) as [go vec'].
  simpl in H. destruct go; auto.
Qed.

Lemma gen_crossing_spec (vec : list Move) :
  Forall (gen_spec b s) vec -> Forall (gen_spec b s) (gen_crossing b f vec).
Proof. intros Hv. unfold gen_crossing. auto using scan_ray_spec. Qed.

Lemma gen_diagonal_spec (vec : list Move) :
  Forall (gen_spec b s) vec -> Forall (gen_spec b s) (gen_diagonal b f vec).
Proof. intros Hv. unfold gen_diagonal. auto using scan_ray_spec. Qed.

Lemma pawn_add_and_check_promote_spec (s' : Side) (t : Pos) (canPromote : bool)
                                      (vec : list Move) :
  (forall k p, dest_ok b s (mkMove f t k p)) ->
  Forall (gen_spec b s) vec ->
  Forall (gen_spec b s) (pawn_add_and_check_promote s' f t canPromote vec).
Proof.
  intros Hd Hv. unfold pawn_add_and_check_promote, Move3.
  destruct canPromote; repeat apply Forall_snoc; auto;
    apply gen_spec_plain; auto.
Qed.

Lemma en_passant_spec (t : Pos) (vec : list Move) :
  has_chance_to_do_en_passant b = true ->
  Forall (gen_spec b s) vec ->
  Forall (gen_spec b s) (vec ++ [Move3 f t en_passant]).
Proof.
  intros Hc Hv. apply Forall_snoc; auto. unfold gen_spec; simpl. auto.
Qed.

Lemma pawn_capture_spec (s' : Side) (r : Z) (promote : bool) (cols : list Z)
                        (vec : list Move) :
  Forall (gen_spec b s) vec ->
  Forall (gen_spec b s)
    (fold_left
       (fun vec c =>
          let p := get b r c in
          let sp := piece_side p in
          if negb (Side_eqb sp extra) && negb (Side_eqb sp (piece_side (get_pos b f)))
          then pawn_add_and_check_promote s' f (mkPos r c) promote vec
          else vec)
       cols vec).
Proof.
  revert vec. induction cols as [|c cols IH]; intros vec Hv; simpl; auto.
  apply IH.
  destruct (Side_eqb_spec (piece_side (get b r c)) extra) as [|He]; simpl; auto.
  destruct (Side_eqb_spec (piece_side (get b r c)) (piece_side (get_pos b f)))
    as [|Hs]; simpl; auto.
  apply pawn_add_and_check_promote_spec; auto.
  intros k p. apply dest_ok_enemy; auto.
Qed.

Lemma pawn_steps_upper_spec (vec : list Move) :
  Forall (gen_spec b s) vec -> Forall (gen_spec b s) (pawn_steps_upper b f vec).
Proof.
  intros Hv. unfold pawn_steps_upper.
  apply pawn_capture_spec.
  destruct (Ascii.eqb_spec (get b (row f + 1) (col f)) P_EE) as [E1|].
  - apply pawn_add_and_check_promote_spec.
    + intros k p. now apply dest_ok_empty.
    + destruct (row f =? upper_pawn_begin_row); simpl.
      * destruct (Ascii.eqb_spec (get b (row f + 2) (col f)) P_EE) as [E2|].
        -- apply Forall_snoc.
           ++ destruct (has_chance_to_do_en_passant b) eqn:Hc; auto.
              case_ifs; auto using en_passant_spec.
           ++ apply gen_spec_plain; auto. now apply dest_ok_empty.
        -- destruct (has_chance_to_do_en_passant b) eqn:Hc; auto.
           case_ifs; auto using en_passant_spec.
      * destruct (has_chance_to_do_en_passant b) eqn:Hc; auto.
        case_ifs; auto using en_passant_spec.
  - destruct (has_chance_to_do_en_passant b) eqn:Hc; auto.
    case_ifs; auto using en_passant_spec.
Qed.

Lemma pawn_steps_down_spec (vec : list Move) :
  Forall (gen_spec b s) vec -> Forall (gen_spec b s) (pawn_steps_down b f vec).
Proof.
  intros Hv. unfold pawn_steps_down.
  apply pawn_capture_spec.
  destruct (Ascii.eqb_spec (get b (row f - 1) (col f)) P_EE) as [E1|].
  - apply pawn_add_and_check_promote_spec.
    + intros k p. now apply dest_ok_empty.
    + destruct (row f =? down_pawn_begin_row); simpl.
      * destruct (Ascii.eqb_spec (get b (row f - 2) (col f)) P_EE) as [E2|].
        -- apply Forall_snoc.
           ++ destruct (has_chance_to_do_en_passant b) eqn:Hc; auto.
              case_ifs; auto using en_passant_spec.
           ++ apply gen_spec_plain; auto. now apply dest_ok_empty.
        -- destruct (has_chance_to_do_en_passant b) eqn:Hc; auto.
           case_ifs; auto using en_passant_spec.
      * destruct (has_chance_to_do_en_passant b) eqn:Hc; auto.
        case_ifs; auto using en_passant_spec.
  - destruct (has_chance_to_do_en_passant b) eqn:Hc; auto.
    case_ifs; auto using en_passant_spec.
Qed.

Lemma pawn_steps_spec (vec : list Move) :
  Forall (gen_spec b s) vec -> Forall (gen_spec b s) (pawn_steps b f vec).
Proof.
  intros Hv. unfold pawn_steps.
  destruct (Ascii.eqb (get_pos b f) P_UP);
    auto using pawn_steps_upper_spec, pawn_steps_down_spec.
Qed.

Lemma knight_steps_spec (vec : list Move) :
  Forall (gen_spec b s) vec -> Forall (gen_spec b s) (knight_steps b f vec).
Proof. intros Hv. unfold knight_steps. auto 10 using try_add_spec. Qed.

Lemma queen_steps_spec (vec : list Move) :
  Forall (gen_spec b s) vec -> Forall (gen_spec b s) (queen_steps b f vec).
Proof.
  intros Hv. unfold queen_steps. auto using gen_crossing_spec, gen_diagonal_spec.
Qed.

Lemma king_steps_spec (vec : list Move) :
  piece_type (get_pos b f) = king ->
  Forall (gen_spec b s) vec -> Forall (gen_spec b s) (king_steps b f vec).
Proof.
  intros Hk Hv. unfold king_steps.
  assert (H8 : Forall (gen_spec b s)
                 (try_add b f 1 1 (try_add b f 1 0 (try_add b f 1 (-1)
                 (try_add b f 0 1 (try_add b f 0 (-1) (try_add b f (-1) 1
                 (try_add b f (-1) 0 (try_add b f (-1) (-1) vec)))))))))
    by auto 10 using try_add_spec.
  cbv zeta. rewrite f_side.
  assert (Hs : forall t vec', Forall (gen_spec b s) vec' ->
               can_short_castle b s = true ->
               Forall (gen_spec b s) (vec' ++ [Move3 f t short_castling])).
  { intros t vec' Hv' Hc. apply Forall_snoc; auto. unfold gen_spec; simpl; auto. }
  assert (Hl : forall t vec', Forall (gen_spec b s) vec' ->
               can_long_castle b s = true ->
               Forall (gen_spec b s) (vec' ++ [Move3 f t long_castling])).
  { intros t vec' Hv' Hc. apply Forall_snoc; auto. unfold gen_spec; simpl; auto. }
  unfold can_short_castle, can_long_castle in Hs, Hl.
  destruct (Side_eqb s upper).
  - destruct (can_upper_short_castle b) eqn:E1;
      destruct (can_upper_long_castle b) eqn:E2; auto.
  - destruct (can_down_short_castle b) eqn:E1;
      destruct (can_down_long_castle b) eqn:E2; auto.
Qed.

End Generator.

Lemma gen_moves_at_spec (b : Board) (s : Side) (r c : Z) (vec : list Move) :
  In r lines -> In c lines ->
  Forall (gen_spec b s) vec -> Forall (gen_spec b s) (gen_moves_at b s r c vec).
Proof.
  intros Hr Hc Hv. unfold gen_moves_at.
  destruct (Side_eqb_spec (piece_side (get b r c)) s) as [Es|]; auto.
  assert (Hx : piece_type (get b r c) <> empty /\ piece_type (get b r c) <> out
               -> s <> extra).
  { intros [H1 H2] ->. destruct (piece_side_extra_type _ Es); contradiction. }
  destruct (piece_type (get b r c)) eqn:Et; auto;
    assert (Hs : s <> extra) by (apply Hx; split; discriminate).
  - apply pawn_steps_spec; auto.
  - apply gen_crossing_spec; auto.
  - apply knight_steps_spec; auto.
  - apply gen_diagonal_spec; auto.
  - apply queen_steps_spec; auto.
  - apply king_steps_spec; auto.
Qed.

Lemma fold_left_invariant {A B} (P : A -> Prop) (Q : B -> Prop)
                          (g : A -> B -> A) (l : list B) (a : A) :
  (forall a x, Q x -> P a -> P (g a x)) ->
  Forall Q l -> P a -> P (fold_left g l a).
Proof.
  intros Hg. revert a. induction l as [|x l IH]; intros a Hl Ha; simpl; auto.
  inversion Hl; subst. apply IH; auto.
Qed.

Lemma gen_moves_for_one_side_spec (b : Board) (s : Side) :
  Forall (gen_spec b s) (gen_moves_for_one_side b s).
Proof.
  unfold gen_moves_for_one_side.
  assert (Hl : Forall (fun x => In x lines) lines)
    by (apply Forall_forall; auto).
  apply (fold_left_invariant (Forall (gen_spec b s)) (fun r => In r lines));
    auto.
  intros vec r Hr Hv.
  apply (fold_left_invariant (Forall (gen_spec b s)) (fun c => In c lines));
    auto.
  intros vec' c Hc Hv'. now apply gen_moves_at_spec.
Qed.

Lemma gen_moves_valid (b : Board) (s : Side) (mv : Move) :
  In mv (gen_moves_for_one_side b s) -> moveType mv <> invalid.
Proof.
  intros Hin E.
  pose proof (gen_moves_for_one_side_spec b s) as H.
  rewrite Forall_forall in H. specialize (H mv Hin).
  destruct H as (_ & _ & _ & H). rewrite E in H. exact H.
Qed.

(** Undo discipline of the C++20 board: for every board and every move the
    generator emits, [move] followed by [undo] gives back the very same
    state, the history included. *)
Lemma move_undo_generated (b : Board) (s : Side) (mv : Move) :
  In mv (gen_moves_for_one_side b s) -> undo (move b mv) = b.
Proof. intros H. apply undo_move. eauto using gen_moves_valid. Qed.

(** *** Claim C10 *)

(** C10: [Board::move] called with a move of the invalid kind changes
    nothing and records nothing: the board is the same state (every grid
    cell, both castling flags, the en-passant target), the history has
    no new entry, and a following [undo] does what it would have done
    without the call. *)
Theorem move_invalid_changes_nothing (b : Board) (mv : Move) :
  moveType mv = invalid ->
  move b mv = b
  /\ (forall r c, get (move b mv) r c = get b r c)
  /\ get_upper_castle_flag (move b mv) = get_upper_castle_flag b
  /\ get_down_castle_flag (move b mv) = get_down_castle_flag b
  /\ has_chance_to_do_en_passant (move b mv) = has_chance_to_do_en_passant b
  /\ en_passant_pos (move b mv) = en_passant_pos b
  /\ history (move b mv) = history b
  /\ undo (move b mv) = undo b.
Proof.
  intros H. assert (E : move b mv = b) by (unfold move; now rewrite H).
  rewrite E. repeat split; reflexivity.
Qed.

Lemma move_invalid_changes_nothing_witness :
  move (move reset (Samples.mv 8 2 7 2 normal)) Move_default
  = move reset (Samples.mv 8 2 7 2 normal)
  /\ undo (move (move reset (Samples.mv 8 2 7 2 normal)) Move_default) = reset.
Proof.
  pose proof (move_invalid_changes_nothing
                (move reset (Samples.mv 8 2 7 2 normal)) Move_default
                eq_refl) as (H1 & _ & _ & _ & _ & _ & _ & H8).
  split; [exact H1 | rewrite H8; reflexivity].
Defined.

(** *** Views of the buffer *)

Lemma view_eqb_3 (b : Board) (start : Z) (c0 c1 c2 : ascii) :
  view_eqb b start (String c0 (String c1 (String c2 EmptyString))) = true ->
  cell b start = c0 /\ cell b (start + 1) = c1 /\ cell b (start + 2) = c2.
Proof.
  unfold view_eqb; simpl. rewrite !andb_true_iff.
  intros (H0 & H1 & H2 & _).
  apply Ascii.eqb_eq in H0, H1, H2.
  rewrite Z.add_0_r in H0. auto.
Qed.

Lemma view_eqb_4 (b : Board) (start : Z) (c0 c1 c2 c3 : ascii) :
  view_eqb b start
    (String c0 (String c1 (String c2 (String c3 EmptyString)))) = true ->
  cell b start = c0 /\ cell b (start + 1) = c1 /\ cell b (start + 2) = c2
  /\ cell b (start + 3) = c3.
Proof.
  unfold view_eqb; simpl. rewrite !andb_true_iff.
  intros (H0 & H1 & H2 & H3 & _).
  apply Ascii.eqb_eq in H0, H1, H2, H3.
  rewrite Z.add_0_r in H0. auto.
Qed.

Ltac in_list := vm_compute; repeat (first [left; reflexivity | right]).

(** *** Claim C6 *)

Lemma cell_set_cell_other (b : Board) (i j : Z) (p : ascii) :
  i <> j -> cell (set_cell b i p) j = cell b j.
Proof. intros H. unfold cell, set_cell; simpl. now apply nth_update_Z_other. Qed.

Lemma cell_set_cell_same (b : Board) (i : Z) (p : ascii) :
  0 <= i < Z.of_nat (length (data b)) -> cell (set_cell b i p) i = p.
Proof. intros H. unfold cell, set_cell; simpl. now apply nth_update_Z_same. Qed.

Lemma well_sized_set_cell (b : Board) (i : Z) (p : ascii) :
  well_sized b -> well_sized (set_cell b i p).
Proof. unfold well_sized, set_cell; simpl. now rewrite update_Z_length. Qed.

Lemma well_sized_move (b : Board) (mv : Move) :
  well_sized b -> well_sized (move b mv).
Proof.
  intros H. unfold move.
  assert (Hp : well_sized (push_history b)) by exact H.
  destruct (moveType mv); simpl; auto; case_ifs;
    unfold set_pos, set, set_upper_castle_flag, set_down_castle_flag,
           reset_en_passant_pos, set_en_passant_pos;
    auto 12 using well_sized_set_cell.
Qed.

Lemma well_sized_play (b : Board) (ms : list Move) :
  well_sized b -> well_sized (Samples.play b ms).
Proof.
  unfold Samples.play. revert b.
  induction ms as [|m ms IH]; intros b H; simpl; auto using well_sized_move.
Qed.

(** A [move] call of any kind but invalid and double step leaves no
    en-passant target. *)
Lemma move_clears_target (b : Board) (mv : Move) :
  well_sized b -> on_board mv ->
  moveType mv <> invalid -> moveType mv <> pawn_2_steps ->
  has_chance_to_do_en_passant (move b mv) = false.
Proof.
  intros Hw [[Hfr Hfc] [Htr Htc]] Hi H2.
  unfold line_begin, line_end in *.
  assert (Hp : well_sized (push_history b)) by exact Hw.
  assert (E : cell (move b mv) en_passant_row_pos = "0"%char).
  { unfold move.
    destruct (moveType mv); try congruence; simpl; case_ifs;
      unfold set_pos, set, set_upper_castle_flag, set_down_castle_flag,
             reset_en_passant_pos, set_en_passant_pos;
      repeat (rewrite cell_set_cell_other
                by (unfold width, en_passant_row_pos, en_passant_col_pos,
                           upper_castle_flag_pos, down_castle_flag_pos; lia));
      (rewrite cell_set_cell_same; [reflexivity |
         unfold well_sized in Hp; rewrite Hp; unfold en_passant_row_pos; lia]). }
  unfold has_chance_to_do_en_passant. rewrite E. reflexivity.
Qed.




(** *** The scanning loops stop by themselves *)

Lemma nth_Z_outside {A} (d : list A) (i : Z) (dflt : A) :
  ~ (0 <= i < Z.of_nat (length d)) -> nth_Z d i dflt = dflt.
Proof.
  intros H. unfold nth_Z. destruct (Z.ltb_spec i 0); [reflexivity|].
  apply nth_overflow. lia.
Qed.

Lemma try_add_possible_move_outside (b : Board) (f t : Pos) (vec : list Move) :
  ~ (0 <= row t * width + col t < Z.of_nat (length (data b))) ->
  try_add_possible_move b f t vec = (false, vec).
Proof.
  intros H. unfold try_add_possible_move.
  assert (E : get_pos b t = P_EO)
    by (unfold get_pos, get, cell; now apply nth_Z_outside).
  rewrite E. reflexivity.
Qed.

(** One more round of fuel changes nothing once the fuel covers the
    cells that lie ahead of the scan inside the buffer. *)
Lemma scan_ray_one_more (b : Board) (f : Pos) (dr dc : Z) :
  dr * width + dc <> 0 ->
  forall fuel rr cc vec,
    (0 <= rr * width + cc < Z.of_nat (length (data b)) ->
     (if 0 <? dr * width + dc
      then Z.of_nat (length (data b)) - (rr * width + cc)
      else rr * width + cc + 1) <= Z.of_nat fuel) ->
    scan_ray (S fuel) b f dr dc rr cc vec = scan_ray fuel b f dr dc rr cc vec.
Proof.
  intros Hs. induction fuel as [|fuel IH]; intros rr cc vec Hm.
  - cbn [scan_ray]. rewrite try_add_possible_move_outside; [reflexivity|].
    cbn [row col]. intros Hin. specialize (Hm Hin).
    destruct (0 <? dr * width + dc); lia.
  - cbn [scan_ray] in *.
    destruct (Z_lt_le_dec (rr * width + cc) 0) as [Hlo|Hlo];
      [rewrite try_add_possible_move_outside by (cbn [row col]; lia);
       reflexivity|].
    destruct (Z_lt_le_dec (rr * width + cc) (Z.of_nat (length (data b))))
      as [Hhi|Hhi];
      [|rewrite try_add_possible_move_outside by (cbn [row col]; lia);
        reflexivity].
    specialize (Hm (conj Hlo Hhi)).
    destruct (try_add_possible_move b f (mkPos rr cc) vec) as [go vec'].
    destruct go; [|reflexivity].
    apply IH. intros Hin.
    replace ((rr + dr) * width + (cc + dc))
      with (rr * width + cc + (dr * width + dc)) in * by ring.
    destruct (Z.ltb_spec 0 (dr * width + dc)); lia.
Qed.

(** No scan uses up [ray_fuel]: any larger amount gives the same moves. *)
Lemma scan_ray_fuel_enough (b : Board) (f : Pos) (dr dc rr cc : Z)
                           (vec : list Move) (n : nat) :
  (length (data b) <= ray_fuel)%nat ->
  dr * width + dc <> 0 ->
  scan_ray (ray_fuel + n) b f dr dc rr cc vec
  = scan_ray ray_fuel b f dr dc rr cc vec.
Proof.
  intros Hlen Hs. induction n as [|n IH]; [now rewrite Nat.add_0_r|].
  rewrite Nat.add_succ_r, <- IH.
  apply scan_ray_one_more; auto.
  intros Hin. destruct (0 <? dr * width + dc); lia.
Qed.

(** *** Claims C4 and C5 *)

(** For every board and side, every generated move of kind normal,
    promotion or double step lands on a cell that is on the board and
    does not hold a piece of the moving side. *)
Lemma plain_moves_land_safely (b : Board) (s : Side) (mv : Move) :
  In mv (gen_moves_for_one_side b s) ->
  moveType mv = normal \/ moveType mv = pawn_move_and_promote
  \/ moveType mv = pawn_2_steps ->
  get_pos b (to mv) <> P_EO /\ piece_side (get_pos b (to mv)) <> s.
Proof.
  intros Hin Hk.
  pose proof (gen_moves_for_one_side_spec b s) as H.
  rewrite Forall_forall in H. specialize (H mv Hin).
  destruct H as (_ & _ & _ & H).
  destruct Hk as [E | [E | E]]; rewrite E in H; exact H.
Qed.

(** C4, at the position after the twelve generated half-moves of
    [Samples.line_double_step]: the border cells hold the off-board
    piece, and the list generated for the down side contains the
    en-passant move from (5, 9) to (4, 10), whose destination is a
    border cell. *)
Theorem en_passant_move_lands_off_board :
  Samples.generated_line reset down Samples.line_double_step = true
  /\ border_holds Samples.after_double_step = true
  /\ In (Samples.mv 5 9 4 10 en_passant)
        (gen_moves_for_one_side Samples.after_double_step down)
  /\ get Samples.after_double_step 4 10 = P_EO.
Proof.
  split; [vm_compute; reflexivity|].
  split; [vm_compute; reflexivity|].
  split; [in_list | reflexivity].
Qed.

(** C5, at two positions reached by generated moves.  In
    [Samples.beside] a pawn of the down side stands at (5, 4), next to
    the square (5, 5) the upper pawn reaches by its double step from
    (3, 5); after the move no en-passant target is active, because the
    neighbours looked at are those of the origin square.  In
    [Samples.after_double_step] the double step from (3, 7) to (5, 7)
    has no pawn of the down side next to its destination, yet a target
    is active, and [en_passant_pos] names (5, 10), not the skipped
    square (4, 7). *)
Theorem double_step_looks_at_origin_rank :
  (Samples.generated_line reset down Samples.line_beside = true
   /\ In (Samples.mv 3 5 5 5 pawn_2_steps)
      (gen_moves_for_one_side Samples.beside upper)
   /\ get Samples.beside 5 4 = P_DP
   /\ has_chance_to_do_en_passant
        (move Samples.beside (Samples.mv 3 5 5 5 pawn_2_steps)) = false)
  /\
  (get Samples.after_double_step 5 7 = P_UP
   /\ get Samples.after_double_step 5 6 <> P_DP
   /\ get Samples.after_double_step 5 8 <> P_DP
   /\ has_chance_to_do_en_passant Samples.after_double_step = true
   /\ en_passant_pos Samples.after_double_step = mkPos 5 10).
Proof.
  split.
  - split; [vm_compute; reflexivity|]. split; [in_list|]. split; reflexivity.
  - repeat split; try reflexivity; vm_compute; discriminate.
Qed.

(** *** Claim C9, for this engine *)

(** [king_steps] of the C++20 engine makes one independent
    [try_add_possible_move] call for each of [king_offsets] and only then
    appends the castling moves. *)
Lemma king_steps_shape (b : Board) (f : Pos) (vec : list Move) :
  king_steps b f vec
  = fold_left (fun vec '(dr, dc) => try_add b f dr dc vec) king_offsets vec
    ++ castling_moves b f.
Proof.
  unfold king_steps, castling_moves, can_short_castle, can_long_castle.
  cbn [fold_left king_offsets].
  destruct (Side_eqb (piece_side (get_pos b f)) upper);
    case_ifs; cbn [app]; rewrite <- ?app_assoc, ?app_nil_r; reflexivity.
Qed.

(** [king_offsets] lists each of the eight neighbours once. *)
Lemma king_offsets_exact :
  NoDup king_offsets
  /\ forall dr dc,
       In (dr, dc) king_offsets
       <-> (-1 <= dr <= 1 /\ -1 <= dc <= 1 /\ (dr, dc) <> (0, 0)).
Proof.
  split.
  - unfold king_offsets.
    repeat (constructor; [simpl; intuition congruence|]). constructor.
  - intros dr dc. unfold king_offsets. simpl. split.
    + intros H.
      repeat (destruct H as [H|H];
              [inversion H; subst; repeat split; try lia; congruence|]).
      contradiction.
    + intros (Hr & Hc & Hne).
      assert (Hdr : dr = -1 \/ dr = 0 \/ dr = 1) by lia.
      assert (Hdc : dc = -1 \/ dc = 0 \/ dc = 1) by lia.
      destruct Hdr as [-> | [-> | ->]], Hdc as [-> | [-> | ->]];
        try congruence; tauto.
Qed.

(** *** Where generated moves lead *)

Lemma lines_spec (x : Z) : In x lines <-> 2 <= x <= 9.
Proof.
  change lines with [2; 3; 4; 5; 6; 7; 8; 9]. simpl. split.
  - intros H. repeat (destruct H as [<-|H]; [lia|]). contradiction.
  - intros H.
    assert (E : x = 2 \/ x = 3 \/ x = 4 \/ x = 5 \/ x = 6 \/ x = 7 \/ x = 8
                \/ x = 9) by lia.
    intuition.
Qed.

Lemma try_add_possible_move_go (b : Board) (f t : Pos) (vec : list Move) :
  fst (try_add_possible_move b f t vec) = true -> get_pos b t = P_EE.
Proof.
  unfold try_add_possible_move.
  destruct (Ascii.eqb_spec (get_pos b t) P_EO); [discriminate|].
  destruct (Ascii.eqb_spec (get_pos b t) P_EE); auto.
  case_ifs; discriminate.
Qed.

Section Reach.

Variable b : Board.
Hypothesis b_ring : ring_holds b.

Variable f : Pos.
Hypothesis f_row : 2 <= row f <= 9.
Hypothesis f_col : 2 <= col f <= 9.

Lemma reach_plain (t : Pos) (k : MoveType) (p : Piece) :
  in_grid (row t) (col t) -> k = normal \/ k = pawn_2_steps ->
  gen_reach (mkMove f t k p).
Proof. intros Ht [-> | ->]; split; simpl; auto. Qed.

Lemma try_add_possible_move_reach (t : Pos) (vec : list Move) :
  in_grid (row t) (col t) ->
  Forall gen_reach vec ->
  Forall gen_reach (snd (try_add_possible_move b f t vec)).
Proof.
  intros Ht Hv. unfold try_add_possible_move.
  case_ifs; simpl; auto; apply Forall_snoc; auto; apply reach_plain; auto.
Qed.

Lemma try_add_reach (dr dc : Z) (vec : list Move) :
  -2 <= dr <= 2 -> -2 <= dc <= 2 ->
  Forall gen_reach vec -> Forall gen_reach (try_add b f dr dc vec).
Proof.
  intros Hr Hc. apply try_add_possible_move_reach.
  unfold in_grid; simpl. lia.
Qed.

Lemma scan_ray_reach (fuel : nat) (dr dc : Z) :
  -1 <= dr <= 1 -> -1 <= dc <= 1 ->
  forall rr cc vec,
    1 <= rr <= 10 -> 0 <= cc <= 11 ->
    Forall gen_reach vec ->
    Forall gen_reach (scan_ray fuel b f dr dc rr cc vec).
Proof.
  intros Hdr Hdc.
  induction fuel as [|fuel IH]; intros rr cc vec Hr Hc Hv; simpl; auto.
  assert (Hg : in_grid rr cc) by (unfold in_grid; lia).
  pose proof (try_add_possible_move_reach (mkPos rr cc) vec Hg Hv) as H.
  pose proof (try_add_possible_move_go b f (mkPos rr cc) vec) as Hgo.
  destruct (try_add_possible_move b f (mkPos rr cc) vec) as [go vec'].
  simpl in H, Hgo. destruct go; auto.
  specialize (Hgo eq_refl). unfold get_pos in Hgo; simpl in Hgo.
  destruct (b_ring rr cc Hg) as [Ho He].
  assert (2 <= rr <= 9).
  { destruct (Z.eq_dec rr 1); [exfalso; apply He; auto|].
    destruct (Z.eq_dec rr 10); [exfalso; apply He; auto|]. lia. }
  assert (1 <= cc <= 10).
  { destruct (Z.eq_dec cc 0) as [E|];
      [rewrite Ho in Hgo by auto; discriminate|].
    destruct (Z.eq_dec cc 11) as [E|];
      [rewrite Ho in Hgo by auto; discriminate|]. lia. }
  apply IH; auto; lia.
Qed.

Lemma gen_crossing_reach (vec : list Move) :
  Forall gen_reach vec -> Forall gen_reach (gen_crossing b f vec).
Proof.
  intros Hv. unfold gen_crossing.
  repeat (apply scan_ray_reach; try lia). exact Hv.
Qed.

Lemma gen_diagonal_reach (vec : list Move) :
  Forall gen_reach vec -> Forall gen_reach (gen_diagonal b f vec).
Proof.
  intros Hv. unfold gen_diagonal.
  repeat (apply scan_ray_reach; try lia). exact Hv.
Qed.

Lemma pawn_add_and_check_promote_reach (s' : Side) (t : Pos)
                                       (canPromote : bool) (vec : list Move) :
  in_grid (row t) (col t) ->
  Forall gen_reach vec ->
  Forall gen_reach (pawn_add_and_check_promote s' f t canPromote vec).
Proof.
  intros Ht Hv. unfold pawn_add_and_check_promote.
  destruct canPromote.
  - repeat apply Forall_snoc; auto; split; simpl; auto;
      destruct (Side_eqb s' upper); reflexivity.
  - apply Forall_snoc; auto. apply reach_plain; auto.
Qed.

Lemma en_passant_reach (dir : Z) (vec : list Move) :
  dir = 1 \/ dir = -1 ->
  Forall gen_reach vec ->
  Forall gen_reach
    (if has_chance_to_do_en_passant b then
       if row f =? row (en_passant_pos b) then
         if (col f + 1 =? col (en_passant_pos b))
            || (col f - 1 =? col (en_passant_pos b))
         then vec ++ [Move3 f (mkPos (row f + dir) (col (en_passant_pos b)))
                            en_passant]
         else vec
       else vec
     else vec).
Proof.
  intros Hd Hv.
  destruct (has_chance_to_do_en_passant b); auto.
  generalize (en_passant_pos b). intros ep.
  destruct (row f =? row ep); auto.
  destruct (Z.eqb_spec (col f + 1) (col ep)) as [E1|E1];
    destruct (Z.eqb_spec (col f - 1) (col ep)) as [E2|E2];
    cbn [orb]; auto; apply Forall_snoc; auto;
    unfold gen_reach, Move3, in_grid; cbn [row col to from moveType]; lia.
Qed.

Lemma pawn_capture_reach (s' : Side) (dir : Z) (promote : bool)
                         (vec : list Move) :
  dir = 1 \/ dir = -1 ->
  Forall gen_reach vec ->
  Forall gen_reach
    (fold_left
       (fun vec c =>
          let p := get b (row f + dir) c in
          let sp := piece_side p in
          if negb (Side_eqb sp extra)
             && negb (Side_eqb sp (piece_side (get_pos b f)))
          then pawn_add_and_check_promote s' f (mkPos (row f + dir) c)
                                          promote vec
          else vec)
       [col f + 1; col f - 1] vec).
Proof.
  intros Hd Hv. cbn [fold_left].
  assert (Hg : forall c, col f - 1 <= c <= col f + 1 ->
                         in_grid (row (mkPos (row f + dir) c))
                                 (col (mkPos (row f + dir) c)))
    by (intros c Hc; unfold in_grid; cbn [row col]; lia).
  case_ifs; auto;
    repeat (apply pawn_add_and_check_promote_reach; [apply Hg; lia|]); auto.
Qed.

Lemma pawn_forward_reach (s' : Side) (dir beginRow : Z) (promote : bool)
                         (vec : list Move) :
  dir = 1 \/ dir = -1 ->
  Forall gen_reach vec ->
  Forall gen_reach
    (if Ascii.eqb (get b (row f + dir) (col f)) P_EE then
       pawn_add_and_check_promote s' f (mkPos (row f + dir) (col f)) promote
         (if (row f =? beginRow)
             && Ascii.eqb (get b (row f + 2 * dir) (col f)) P_EE
          then vec ++ [Move3 f (mkPos (row f + 2 * dir) (col f)) pawn_2_steps]
          else vec)
     else vec).
Proof.
  intros Hd Hv.
  destruct (Ascii.eqb (get b (row f + dir) (col f)) P_EE); auto.
  apply pawn_add_and_check_promote_reach; [unfold in_grid; cbn [row col]; lia|].
  destruct ((row f =? beginRow) && _); auto.
  apply Forall_snoc; auto. apply reach_plain; auto.
  unfold in_grid; cbn [row col]; lia.
Qed.

Lemma pawn_steps_upper_reach (vec : list Move) :
  Forall gen_reach vec -> Forall gen_reach (pawn_steps_upper b f vec).
Proof.
  intros Hv. unfold pawn_steps_upper. cbv zeta.
  apply (pawn_capture_reach upper 1); auto.
  apply (pawn_forward_reach upper 1); auto.
  apply (en_passant_reach 1); auto.
Qed.

Lemma pawn_steps_down_reach (vec : list Move) :
  Forall gen_reach vec -> Forall gen_reach (pawn_steps_down b f vec).
Proof.
  intros Hv. unfold pawn_steps_down. cbv zeta.
  apply (pawn_capture_reach down (-1)); auto.
  apply (pawn_forward_reach down (-1)); auto.
  apply (en_passant_reach (-1)); auto.
Qed.

Lemma king_steps_reach (vec : list Move) :
  Forall gen_reach vec -> Forall gen_reach (king_steps b f vec).
Proof.
  intros Hv. rewrite king_steps_shape. apply Forall_app. split.
  - unfold king_offsets. cbn [fold_left].
    repeat (apply try_add_reach; try lia). exact Hv.
  - unfold castling_moves. apply Forall_app.
    split; case_ifs; try apply Forall_nil;
      (apply Forall_cons; [|apply Forall_nil]);
      unfold gen_reach, Move3, in_grid; cbn [row col to from moveType]; lia.
Qed.

Lemma knight_steps_reach (vec : list Move) :
  Forall gen_reach vec -> Forall gen_reach (knight_steps b f vec).
Proof.
  intros Hv. unfold knight_steps.
  repeat (apply try_add_reach; try lia). exact Hv.
Qed.

End Reach.

Lemma gen_moves_for_one_side_reach (b : Board) (s : Side) :
  ring_holds b -> Forall gen_reach (gen_moves_for_one_side b s).
Proof.
  intros Hring. unfold gen_moves_for_one_side.
  assert (Hl : Forall (fun x => 2 <= x <= 9) lines)
    by (apply Forall_forall; intros x; apply lines_spec).
  apply (fold_left_invariant (Forall gen_reach) (fun r => 2 <= r <= 9)); auto.
  intros vec r Hr Hv.
  apply (fold_left_invariant (Forall gen_reach) (fun c => 2 <= c <= 9)); auto.
  intros vec' c Hc Hv'. unfold gen_moves_at.
  destruct (Side_eqb _ s); auto.
  destruct (piece_type (get b r c)); auto.
  - unfold pawn_steps.
    destruct (Ascii.eqb _ P_UP);
      [apply pawn_steps_upper_reach | apply pawn_steps_down_reach]; auto.
  - apply gen_crossing_reach; auto.
  - apply knight_steps_reach; auto.
  - apply gen_diagonal_reach; auto.
  - apply gen_diagonal_reach; auto. apply gen_crossing_reach; auto.
  - apply king_steps_reach; auto.
Qed.

(** *** The castling invariant *)

Lemma get_set_same (b : Board) (r c : Z) (p : Piece) :
  well_sized b -> in_grid r c -> get (set b r c p) r c = p.
Proof.
  intros Hw [Hr Hc]. unfold get, set. apply cell_set_cell_same.
  unfold well_sized in Hw. rewrite Hw. unfold width. lia.
Qed.

Lemma get_set_other (b : Board) (r c r' c' : Z) (p : Piece) :
  in_grid r c -> in_grid r' c' -> r <> r' \/ c <> c' ->
  get (set b r c p) r' c' = get b r' c'.
Proof.
  intros [Hr Hc] [Hr' Hc'] Hne. unfold get, set.
  apply cell_set_cell_other. unfold width. lia.
Qed.

Lemma get_set_cell_high (b : Board) (i r c : Z) (p : ascii) :
  144 <= i -> in_grid r c -> get (set_cell b i p) r c = get b r c.
Proof.
  intros Hi [Hr Hc]. unfold get. apply cell_set_cell_other.
  unfold width. lia.
Qed.

Lemma castle_flag_set (b : Board) (r c : Z) (p : Piece) (s : Side) :
  in_grid r c -> castle_flag (set b r c p) s = castle_flag b s.
Proof.
  intros [Hr Hc].
  unfold castle_flag, get_upper_castle_flag, get_down_castle_flag, set.
  rewrite !cell_set_cell_other;
    unfold width, upper_castle_flag_pos, down_castle_flag_pos; auto; lia.
Qed.

Lemma castle_flag_set_cell_target (b : Board) (i : Z) (p : ascii) (s : Side) :
  146 <= i -> castle_flag (set_cell b i p) s = castle_flag b s.
Proof.
  intros Hi.
  unfold castle_flag, get_upper_castle_flag, get_down_castle_flag.
  rewrite !cell_set_cell_other;
    unfold upper_castle_flag_pos, down_castle_flag_pos; auto; lia.
Qed.

Lemma castle_flag_cleared (b : Board) (s : Side) :
  well_sized b -> s <> extra ->
  castle_flag (if Side_eqb s upper then set_upper_castle_flag b false
               else set_down_castle_flag b false) s = false.
Proof.
  intros Hw Hs. unfold well_sized in Hw.
  destruct s; [| |congruence]; cbn [Side_eqb];
    unfold castle_flag, get_upper_castle_flag, get_down_castle_flag,
           set_upper_castle_flag, set_down_castle_flag; cbn [Side_eqb];
    rewrite cell_set_cell_same;
    try reflexivity;
    rewrite Hw; unfold upper_castle_flag_pos, down_castle_flag_pos; lia.
Qed.

Lemma castle_flag_other_cleared (b : Board) (s s' : Side) :
  s <> s' -> s <> extra -> s' <> extra ->
  castle_flag (if Side_eqb s upper then set_upper_castle_flag b false
               else set_down_castle_flag b false) s' = castle_flag b s'.
Proof.
  intros Hne Hs Hs'.
  destruct s, s'; try congruence; cbn [Side_eqb];
    unfold castle_flag, get_upper_castle_flag, get_down_castle_flag,
           set_upper_castle_flag, set_down_castle_flag; cbn [Side_eqb];
    rewrite cell_set_cell_other;
    unfold upper_castle_flag_pos, down_castle_flag_pos; auto; lia.
Qed.

Lemma ring_set (b : Board) (r c : Z) (p : Piece) :
  well_sized b -> ring_holds b ->
  1 <= r <= 10 -> 1 <= c <= 10 -> 2 <= r <= 9 \/ p <> P_EE ->
  ring_holds (set b r c p).
Proof.
  intros Hw Hring Hr Hc Hp r' c' Hg.
  assert (Hin : in_grid r c) by (unfold in_grid; lia).
  destruct (Z.eq_dec r r') as [<-|Hnr].
  - destruct (Z.eq_dec c c') as [<-|Hnc].
    + rewrite get_set_same by auto. split; intros H; [lia|].
      destruct Hp; [lia | assumption].
    + rewrite get_set_other by auto. now apply Hring.
  - rewrite get_set_other by auto. now apply Hring.
Qed.

Lemma ring_set_cell_high (b : Board) (i : Z) (p : ascii) :
  ring_holds b -> 144 <= i -> ring_holds (set_cell b i p).
Proof.
  intros Hring Hi r c Hg. rewrite get_set_cell_high by auto. now apply Hring.
Qed.

Lemma king_cells_set (b : Board) (s : Side) (r c : Z) (p : Piece) :
  well_sized b -> in_grid r c -> p <> king_of s ->
  king_only_at_home b s -> king_only_at_home (set b r c p) s.
Proof.
  intros Hw Hin Hp Hk r' c' Hr' Hc' E.
  apply lines_spec in Hr' as Hr2. apply lines_spec in Hc' as Hc2.
  assert (Hg : in_grid r' c') by (unfold in_grid; lia).
  destruct (Z.eq_dec r r') as [<-|Hnr].
  - destruct (Z.eq_dec c c') as [<-|Hnc].
    + rewrite get_set_same in E by auto. contradiction.
    + rewrite get_set_other in E by auto. now apply Hk.
  - rewrite get_set_other in E by auto. now apply Hk.
Qed.

Lemma king_cells_set_cell_high (b : Board) (s : Side) (i : Z) (p : ascii) :
  144 <= i -> king_only_at_home b s -> king_only_at_home (set_cell b i p) s.
Proof.
  intros Hi Hk r c Hr Hc E.
  apply lines_spec in Hr as Hr2. apply lines_spec in Hc as Hc2.
  rewrite get_set_cell_high in E by (auto; unfold in_grid; lia).
  now apply Hk.
Qed.

Lemma king_piece (p : Piece) (s : Side) :
  piece_side p = s -> piece_type p = king -> p = king_of s.
Proof.
  unfold king_of, piece_type, piece_side, is_one_of, existsb.
  intros Hs Ht.
  repeat match type of Ht with
         | context [Ascii.eqb ?p ?c] =>
             destruct (Ascii.eqb_spec p c) as [E|];
             [rewrite E in *; simpl in *; try discriminate;
              subst s; reflexivity |]
         end; simpl in Ht; discriminate.
Qed.

Lemma can_castle_flag (b : Board) (s : Side) :
  can_short_castle b s = true \/ can_long_castle b s = true ->
  castle_flag b s = true.
Proof.
  unfold can_short_castle, can_long_castle, castle_flag,
         can_upper_short_castle, can_upper_long_castle,
         can_down_short_castle, can_down_long_castle.
  destruct (Side_eqb s upper);
    [destruct (get_upper_castle_flag b) | destruct (get_down_castle_flag b)];
    intuition discriminate.
Qed.

Lemma promotion_piece_not_king (p : Piece) (s : Side) :
  promotion_piece p = true -> p <> king_of s /\ p <> P_EE.
Proof.
  intros H. split; intros E; rewrite E in H; destruct s; discriminate H.
Qed.

Lemma inner_of_not_off (b : Board) (r c : Z) :
  ring_holds b -> in_grid r c -> get b r c <> P_EO ->
  1 <= r <= 10 /\ 1 <= c <= 10.
Proof.
  intros Hring Hg Hne. destruct (Hring r c Hg) as [Ho _]. destruct Hg.
  assert (~ (r = 0 \/ r = 11 \/ c = 0 \/ c = 11)) by (intro; apply Hne; auto).
  lia.
Qed.

(** What the state invariant adds to the generator's guarantees. *)
Lemma generated_move_facts (b : Board) (s : Side) (mv : Move) :
  sound b -> s <> extra -> In mv (gen_moves_for_one_side b s) ->
  (2 <= row (from mv) <= 9 /\ 2 <= col (from mv) <= 9)
  /\ (1 <= row (to mv) <= 10 /\ 1 <= col (to mv) <= 10)
  /\ piece_side (get_pos b (from mv)) = s
  /\ (moveType mv = short_castling \/ moveType mv = long_castling ->
      row (from mv) = home_row s /\ col (from mv) = king_home_col
      /\ get_pos b (from mv) = king_of s).
Proof.
  intros (Hw & Hring & Hku & Hkd) Hs Hin.
  pose proof (gen_moves_for_one_side_spec b s) as H1.
  pose proof (gen_moves_for_one_side_reach b s Hring) as H2.
  rewrite Forall_forall in H1, H2.
  destruct (H1 mv Hin) as (Hside & Hfr & Hfc & Hkind).
  destruct (H2 mv Hin) as (Hgrid & Hreach).
  apply lines_spec in Hfr as Hfr2. apply lines_spec in Hfc as Hfc2.
  assert (Hcastle : moveType mv = short_castling \/ moveType mv = long_castling ->
                    row (from mv) = home_row s /\ col (from mv) = king_home_col
                    /\ get_pos b (from mv) = king_of s).
  { intros Hk.
    assert (Hc : (can_short_castle b s = true \/ can_long_castle b s = true)
                 /\ piece_type (get_pos b (from mv)) = king)
      by (destruct Hk as [E|E]; rewrite E in Hkind; tauto).
    destruct Hc as [Hc Ht].
    pose proof (king_piece _ _ Hside Ht) as Hking.
    pose proof (can_castle_flag b s Hc) as Hflag.
    assert (Hhome : king_only_at_home b s)
      by (destruct s; [auto | auto | congruence]).
    destruct (Hhome _ _ Hfr Hfc Hking). auto. }
  assert (Hto : 1 <= row (to mv) <= 10 /\ 1 <= col (to mv) <= 10).
  { unfold home_row, king_home_col in Hcastle.
    destruct (moveType mv) eqn:Ek; try contradiction;
      try (apply (inner_of_not_off b); auto; apply Hkind).
    - lia.
    - destruct Hcastle as (? & ? & ?); auto.
      destruct (Side_eqb s upper); lia.
    - destruct Hcastle as (? & ? & ?); auto.
      destruct (Side_eqb s upper); lia. }
  tauto.
Qed.

(** The two halves of the invariant, each carried through one write. *)

Lemma wr_set (b : Board) (r c : Z) (p : Piece) :
  well_sized b /\ ring_holds b ->
  1 <= r <= 10 -> 1 <= c <= 10 -> 2 <= r <= 9 \/ p <> P_EE ->
  well_sized (set b r c p) /\ ring_holds (set b r c p).
Proof.
  intros [Hw Hring] Hr Hc Hp. split.
  - now apply well_sized_set_cell.
  - now apply ring_set.
Qed.

Lemma wr_set_cell (b : Board) (i : Z) (p : ascii) :
  well_sized b /\ ring_holds b -> 144 <= i ->
  well_sized (set_cell b i p) /\ ring_holds (set_cell b i p).
Proof.
  intros [Hw Hring] Hi. split.
  - now apply well_sized_set_cell.
  - now apply ring_set_cell_high.
Qed.

Lemma kh_set (b : Board) (s : Side) (r c : Z) (p : Piece) :
  well_sized b /\ (castle_flag b s = true -> king_only_at_home b s) ->
  in_grid r c -> p <> king_of s ->
  well_sized (set b r c p)
  /\ (castle_flag (set b r c p) s = true -> king_only_at_home (set b r c p) s).
Proof.
  intros [Hw Hk] Hg Hp. split; [now apply well_sized_set_cell|].
  rewrite castle_flag_set by assumption. intros Hf.
  apply king_cells_set; auto.
Qed.

Lemma kh_set_copy (b : Board) (s : Side) (r c r0 c0 : Z) :
  well_sized b /\ (castle_flag b s = true -> king_only_at_home b s) ->
  in_grid r c -> 2 <= r0 <= 9 -> 2 <= c0 <= 9 -> c0 <> king_home_col ->
  well_sized (set b r c (get b r0 c0))
  /\ (castle_flag (set b r c (get b r0 c0)) s = true ->
      king_only_at_home (set b r c (get b r0 c0)) s).
Proof.
  intros [Hw Hk] Hg Hr0 Hc0 Hne. split; [now apply well_sized_set_cell|].
  rewrite castle_flag_set by assumption. intros Hf.
  apply king_cells_set; auto.
  intros E. apply lines_spec in Hr0, Hc0.
  destruct (Hk Hf _ _ Hr0 Hc0 E). contradiction.
Qed.

Lemma kh_set_cell_target (b : Board) (s : Side) (i : Z) (p : ascii) :
  well_sized b /\ (castle_flag b s = true -> king_only_at_home b s) ->
  146 <= i ->
  well_sized (set_cell b i p)
  /\ (castle_flag (set_cell b i p) s = true ->
      king_only_at_home (set_cell b i p) s).
Proof.
  intros [Hw Hk] Hi. split; [now apply well_sized_set_cell|].
  rewrite castle_flag_set_cell_target by assumption. intros Hf.
  apply king_cells_set_cell_high; auto. lia.
Qed.

Lemma kh_clear (b : Board) (s s' : Side) :
  s <> extra -> s' <> extra ->
  well_sized b /\ (castle_flag b s' = true -> king_only_at_home b s') ->
  let b' := if Side_eqb s upper then set_upper_castle_flag b false
            else set_down_castle_flag b false in
  well_sized b' /\ (castle_flag b' s' = true -> king_only_at_home b' s').
Proof.
  intros Hs Hs' [Hw Hk] b'.
  assert (Hw' : well_sized b')
    by (subst b'; destruct (Side_eqb s upper); now apply well_sized_set_cell).
  split; [exact Hw'|].
  destruct (Side_eqb_spec s s') as [<-|Hne].
  - subst b'. rewrite castle_flag_cleared by assumption. discriminate.
  - subst b'. rewrite castle_flag_other_cleared by assumption. intros Hf.
    destruct (Side_eqb s upper);
      apply king_cells_set_cell_high; auto;
      unfold upper_castle_flag_pos, down_castle_flag_pos; lia.
Qed.

Lemma kh_clear_same (b : Board) (s : Side) :
  s <> extra -> well_sized b ->
  let b' := if Side_eqb s upper then set_upper_castle_flag b false
            else set_down_castle_flag b false in
  well_sized b' /\ (castle_flag b' s = true -> king_only_at_home b' s).
Proof.
  intros Hs Hw b'. split.
  - subst b'; destruct (Side_eqb s upper); now apply well_sized_set_cell.
  - subst b'. rewrite castle_flag_cleared by assumption. discriminate.
Qed.

Lemma piece_side_not_empty (p : Piece) (s : Side) :
  s <> extra -> piece_side p = s -> p <> P_EE.
Proof. intros Hs Hp E. rewrite E in Hp. apply Hs. now rewrite <- Hp. Qed.

Lemma ring_move (b : Board) (s : Side) (mv : Move) :
  sound b -> s <> extra -> In mv (gen_moves_for_one_side b s) ->
  well_sized (move b mv) /\ ring_holds (move b mv).
Proof.
  intros Hsound Hs Hin.
  destruct (generated_move_facts b s mv Hsound Hs Hin)
    as ((Hfr & Hfc) & (Htr & Htc) & Hside & Hcastle).
  pose proof (piece_side_not_empty _ _ Hs Hside) as Hne.
  pose proof (gen_moves_for_one_side_reach b s) as Hreach.
  destruct Hsound as (Hw & Hring & _ & _).
  specialize (Hreach Hring). rewrite Forall_forall in Hreach.
  destruct (Hreach mv Hin) as [_ Hpromo]. clear Hreach.
  assert (H0 : well_sized (push_history b) /\ ring_holds (push_history b))
    by (split; assumption).
  unfold king_home_col in Hcastle.
  unfold move.
  destruct (moveType mv) eqn:Ek; cbn [MoveType_eqb]; auto;
    try (destruct Hcastle as (Hcr & Hcc & Hck); [solve [auto]|]);
    unfold set_pos, reset_en_passant_pos, set_en_passant_pos,
           set_upper_castle_flag, set_down_castle_flag;
    case_ifs.
  all: repeat (first
         [ apply wr_set_cell;
           [| solve [unfold en_passant_row_pos, en_passant_col_pos,
                            upper_castle_flag_pos, down_castle_flag_pos; lia]]
         | apply wr_set;
           [| solve [lia] | solve [lia]
            | solve [left; lia | right; assumption
                    | right; apply (promotion_piece_not_king _ upper Hpromo)]]
         ]).
  all: exact H0.
Qed.

Lemma P_EE_not_king (s : Side) : P_EE <> king_of s.
Proof. destruct s; discriminate. Qed.

Lemma kh_clear_flag (b : Board) (s s' : Side) :
  s <> extra -> s' <> extra -> well_sized b ->
  (s <> s' -> castle_flag b s' = true -> king_only_at_home b s') ->
  let b' := if Side_eqb s upper then set_upper_castle_flag b false
            else set_down_castle_flag b false in
  well_sized b' /\ (castle_flag b' s' = true -> king_only_at_home b' s').
Proof.
  intros Hs Hs' Hw Hk.
  destruct (Side_eqb_spec s s') as [<-|Hne].
  - now apply kh_clear_same.
  - apply kh_clear; auto.
Qed.

Lemma kh_clear_upper (b : Board) (s' : Side) :
  s' <> extra -> well_sized b ->
  (upper <> s' ->
   well_sized b /\ (castle_flag b s' = true -> king_only_at_home b s')) ->
  well_sized (set_upper_castle_flag b false)
  /\ (castle_flag (set_upper_castle_flag b false) s' = true ->
      king_only_at_home (set_upper_castle_flag b false) s').
Proof.
  intros Hs' Hw Hk.
  apply (kh_clear_flag b upper s'); auto; [discriminate|].
  intros Hne. now apply Hk.
Qed.

Lemma kh_clear_down (b : Board) (s' : Side) :
  s' <> extra -> well_sized b ->
  (down <> s' ->
   well_sized b /\ (castle_flag b s' = true -> king_only_at_home b s')) ->
  well_sized (set_down_castle_flag b false)
  /\ (castle_flag (set_down_castle_flag b false) s' = true ->
      king_only_at_home (set_down_castle_flag b false) s').
Proof.
  intros Hs' Hw Hk.
  apply (kh_clear_flag b down s'); auto; [discriminate|].
  intros Hne. now apply Hk.
Qed.

Lemma kings_move (b : Board) (s s' : Side) (mv : Move) :
  sound b -> s <> extra -> s' <> extra ->
  In mv (gen_moves_for_one_side b s) ->
  well_sized (move b mv)
  /\ (castle_flag (move b mv) s' = true -> king_only_at_home (move b mv) s').
Proof.
  intros Hsound Hs Hs' Hin.
  destruct (generated_move_facts b s mv Hsound Hs Hin)
    as ((Hfr & Hfc) & (Htr & Htc) & Hside & Hcastle).
  pose proof (gen_moves_for_one_side_reach b s) as Hreach.
  destruct Hsound as (Hw & Hring & Hku & Hkd).
  specialize (Hreach Hring). rewrite Forall_forall in Hreach.
  destruct (Hreach mv Hin) as [_ Hpromo]. clear Hreach.
  assert (K0 : well_sized (push_history b)
               /\ (castle_flag (push_history b) s' = true ->
                   king_only_at_home (push_history b) s'))
    by (split; [exact Hw | destruct s'; [exact Hku | exact Hkd | congruence]]).
  assert (W0 : well_sized (push_history b)) by exact Hw.
  unfold king_home_col in Hcastle.
  unfold move.
  change (get_pos (push_history b) (from mv)) with (get_pos b (from mv)).
  set (fromP := get_pos b (from mv)) in *.
  assert (Hking : fromP <> P_UK -> fromP <> P_DK -> fromP <> king_of s')
    by (destruct s'; auto).
  destruct (moveType mv) eqn:Ek; cbn [MoveType_eqb]; auto;
    try (destruct Hcastle as (Hcr & Hcc & Hck); [solve [auto]|]);
    unfold set_pos, reset_en_passant_pos, set_en_passant_pos;
    try (destruct (Ascii.eqb_spec fromP P_UK) as [EK|NK];
         [|destruct (Ascii.eqb_spec fromP P_DK) as [EK|NK']]);
    case_ifs.
  all: destruct s'; [| |congruence].
  all: repeat (first
         [ apply kh_set_copy;
           [| solve [unfold in_grid; lia] | solve [lia] | solve [lia]
            | solve [unfold king_home_col; lia]]
         | apply kh_set;
           [| solve [unfold in_grid; lia]
            | solve [ apply P_EE_not_king
                    | apply (promotion_piece_not_king _ _ Hpromo)
                    | apply Hking; assumption
                    | rewrite EK; discriminate ]]
         | apply kh_set_cell_target;
           [| solve [unfold en_passant_row_pos, en_passant_col_pos; lia]]
         | apply kh_clear_upper;
           [ discriminate
           | solve [unfold set; repeat apply well_sized_set_cell; exact W0]
           | intros Hne'; try congruence ]
         | apply kh_clear_down;
           [ discriminate
           | solve [unfold set; repeat apply well_sized_set_cell; exact W0]
           | intros Hne'; try congruence ]
         ]).
  all: exact K0.
Qed.

Lemma ring_check_sound (b : Board) : ring_check b = true -> ring_holds b.
Proof.
  unfold ring_check. intros H r c [Hr Hc].
  rewrite forallb_forall in H.
  assert (Hin : forall x, 0 <= x <= 11 -> In x (map Z.of_nat (seq 0 12)))
    by (intros x Hx; simpl; lia).
  specialize (H r (Hin r Hr)). rewrite forallb_forall in H.
  specialize (H c (Hin c Hc)). apply andb_true_iff in H. destruct H as [H1 H2].
  split; intros Hcase.
  - apply Ascii.eqb_eq.
    assert (E : (r =? 0) || (r =? 11) || (c =? 0) || (c =? 11) = true).
    { rewrite !orb_true_iff, !Z.eqb_eq. tauto. }
    rewrite E in H1. exact H1.
  - assert (E : (r =? 1) || (r =? 10) = true).
    { rewrite !orb_true_iff, !Z.eqb_eq. tauto. }
    rewrite E in H2. simpl in H2. intros Heq.
    apply Ascii.eqb_eq in Heq. rewrite Heq in H2. discriminate.
Qed.

Lemma king_home_check (b : Board) (s : Side) :
  forallb
    (fun r =>
       forallb
         (fun c =>
            implb (Ascii.eqb (get b r c) (king_of s))
                  ((r =? home_row s) && (c =? king_home_col)))
         lines)
    lines = true ->
  king_only_at_home b s.
Proof.
  intros H r c Hr Hc E.
  rewrite forallb_forall in H. specialize (H r Hr).
  rewrite forallb_forall in H. specialize (H c Hc).
  apply Ascii.eqb_eq in E. rewrite E in H. simpl in H.
  apply andb_true_iff in H. now rewrite !Z.eqb_eq in H.
Qed.

(** The initial position satisfies the invariant. *)
Lemma sound_reset : sound reset.
Proof.
  split; [reflexivity|]. split; [apply ring_check_sound; reflexivity|].
  split; intros _; apply king_home_check; reflexivity.
Qed.

(** Every generated move keeps it. *)
Lemma sound_move (b : Board) (s : Side) (mv : Move) :
  sound b -> s <> extra -> In mv (gen_moves_for_one_side b s) ->
  sound (move b mv).
Proof.
  intros Hsound Hs Hin.
  destruct (ring_move b s mv Hsound Hs Hin) as [Hw Hring].
  split; [exact Hw|]. split; [exact Hring|]. split.
  - apply (kings_move b s upper mv); auto. discriminate.
  - apply (kings_move b s down mv); auto. discriminate.
Qed.

Lemma reachable_sound (b : Board) : reachable b -> sound b.
Proof.
  induction 1 as [|b s mv _ IH Hs Hin]; [apply sound_reset|].
  now apply (sound_move b s mv).
Qed.

(** On a reachable board a generated castling move starts from the
    king's origin square. *)
Lemma castling_starts_at_home (b : Board) (s : Side) (mv : Move) :
  reachable b -> In mv (gen_moves_for_one_side b s) ->
  moveType mv = short_castling \/ moveType mv = long_castling ->
  from mv = mkPos (home_row s) king_home_col.
Proof.
  intros Hreach Hin Hk.
  assert (Hs : s <> extra).
  { intros ->.
    pose proof (gen_moves_for_one_side_spec b extra) as H.
    rewrite Forall_forall in H. specialize (H mv Hin).
    destruct H as (Hside & _ & _ & H).
    assert (Ht : piece_type (get_pos b (from mv)) = king)
      by (destruct Hk as [E|E]; rewrite E in H; tauto).
    destruct (piece_side_extra_type _ Hside) as [E|E];
      rewrite E in Ht; discriminate. }
  destruct (generated_move_facts b s mv (reachable_sound b Hreach) Hs Hin)
    as (_ & _ & _ & Hc).
  destruct (Hc Hk) as (Hr & Hcol & _).
  destruct (from mv) as [fr fc]. simpl in *. now subst.
Qed.

(** On a reachable board every generated move starts inside the 8 x 8
    range and ends inside the grid. *)
Lemma generated_on_board (b : Board) (s : Side) (mv : Move) :
  reachable b -> s <> extra -> In mv (gen_moves_for_one_side b s) ->
  on_board mv.
Proof.
  intros Hreach Hs Hin.
  destruct (generated_move_facts b s mv (reachable_sound b Hreach) Hs Hin)
    as (Hf & Ht & _).
  unfold on_board, playable, in_grid, line_begin, line_end. lia.
Qed.

(** *** Claim C7 *)

(** What [can_upper_short_castle] and its three siblings have checked
    when a castling move is emitted. *)
Lemma castling_squares (b : Board) (s : Side) (mv : Move) :
  In mv (gen_moves_for_one_side b s) ->
  (moveType mv = short_castling ->
     castle_flag b s = true
     /\ get b (home_row s) (king_home_col + 1) = P_EE
     /\ get b (home_row s) (king_home_col + 2) = P_EE
     /\ get b (home_row s) (king_home_col + 3) = rook_of s
     /\ get_pos b (from mv) = king_of s)
  /\
  (moveType mv = long_castling ->
     castle_flag b s = true
     /\ get b (home_row s) (king_home_col - 1) = P_EE
     /\ get b (home_row s) (king_home_col - 2) = P_EE
     /\ get b (home_row s) (king_home_col - 3) = P_EE
     /\ get b (home_row s) (king_home_col - 4) = rook_of s
     /\ get_pos b (from mv) = king_of s).
Proof.
  intros Hin.
  pose proof (gen_moves_for_one_side_spec b s) as H.
  rewrite Forall_forall in H. specialize (H mv Hin).
  destruct H as (Hside & _ & _ & H).
  split; intros Hk; rewrite Hk in H; destruct H as [Hc Ht];
    pose proof (king_piece _ _ Hside Ht) as Hking;
    unfold castle_flag, home_row, rook_of in *;
    unfold can_short_castle, can_long_castle in Hc;
    destruct (Side_eqb s upper).
  - unfold can_upper_short_castle in Hc.
    destruct (get_upper_castle_flag b); [|discriminate].
    apply view_eqb_3 in Hc. unfold get. tauto.
  - unfold can_down_short_castle in Hc.
    destruct (get_down_castle_flag b); [|discriminate].
    apply view_eqb_3 in Hc. unfold get. tauto.
  - unfold can_upper_long_castle in Hc.
    destruct (get_upper_castle_flag b); [|discriminate].
    apply view_eqb_4 in Hc. unfold get. tauto.
  - unfold can_down_long_castle in Hc.
    destruct (get_down_castle_flag b); [|discriminate].
    apply view_eqb_4 in Hc. unfold get. tauto.
Qed.

(** C7: whenever a short-castling or long-castling move is in the list
    generated for a side, that side's castling-allowed flag is set, the
    squares strictly between the king's origin square and the rook's
    origin square are empty, and the side's rook stands on that origin
    square; the piece the move starts from is that side's king, and on
    every board reachable from the initial position by generated moves
    the move starts from the king's origin square, so that these are the
    squares between the king and the rook. *)
Theorem castling_generated_only_when_allowed (b : Board) (s : Side) (mv : Move) :
  In mv (gen_moves_for_one_side b s) ->
  (moveType mv = short_castling ->
     castle_flag b s = true
     /\ get b (home_row s) (king_home_col + 1) = P_EE
     /\ get b (home_row s) (king_home_col + 2) = P_EE
     /\ get b (home_row s) (king_home_col + 3) = rook_of s
     /\ get_pos b (from mv) = king_of s
     /\ (reachable b -> from mv = mkPos (home_row s) king_home_col))
  /\
  (moveType mv = long_castling ->
     castle_flag b s = true
     /\ get b (home_row s) (king_home_col - 1) = P_EE
     /\ get b (home_row s) (king_home_col - 2) = P_EE
     /\ get b (home_row s) (king_home_col - 3) = P_EE
     /\ get b (home_row s) (king_home_col - 4) = rook_of s
     /\ get_pos b (from mv) = king_of s
     /\ (reachable b -> from mv = mkPos (home_row s) king_home_col)).
Proof.
  intros Hin.
  destruct (castling_squares b s mv Hin) as [Hshort Hlong].
  assert (Hhome : moveType mv = short_castling \/ moveType mv = long_castling ->
                  reachable b -> from mv = mkPos (home_row s) king_home_col)
    by (intros Hk Hr; eapply castling_starts_at_home; eauto).
  split; intros Hk.
  - destruct (Hshort Hk) as (H1 & H2 & H3 & H4 & H5). auto 10.
  - destruct (Hlong Hk) as (H1 & H2 & H3 & H4 & H5 & H6). auto 10.
Qed.

Lemma castling_generated_only_when_allowed_witness :
  castle_flag Samples.castle_ready upper = true
  /\ get Samples.castle_ready 2 7 = P_EE
  /\ get Samples.castle_ready 2 8 = P_EE
  /\ get Samples.castle_ready 2 9 = P_UR
  /\ get Samples.castle_ready 2 6 = P_UK.
Proof.
  assert (Hin : In (Samples.mv 2 6 2 8 short_castling)
                   (gen_moves_for_one_side Samples.castle_ready upper))
    by in_list.
  destruct (castling_generated_only_when_allowed
              Samples.castle_ready upper
              (Samples.mv 2 6 2 8 short_castling) Hin) as [Hs _].
  destruct (Hs eq_refl) as (H1 & H2 & H3 & H4 & H5 & _).
  repeat split; assumption.
Defined.

(** On every reachable board, every generated move other than an
    en-passant capture lands on a cell that is on the board and does not
    hold a piece of the moving side. *)
Lemma all_but_en_passant_land_safely (b : Board) (s : Side) (mv : Move) :
  reachable b -> s <> extra ->
  In mv (gen_moves_for_one_side b s) -> moveType mv <> en_passant ->
  get_pos b (to mv) <> P_EO /\ piece_side (get_pos b (to mv)) <> s.
Proof.
  intros Hreach Hs Hin Hk.
  pose proof (gen_moves_for_one_side_spec b s) as H1.
  rewrite Forall_forall in H1.
  destruct (H1 mv Hin) as (_ & _ & _ & Hkind).
  pose proof (reachable_sound b Hreach) as Hsound.
  destruct Hsound as (_ & Hring & _).
  pose proof (gen_moves_for_one_side_reach b s Hring) as H2.
  rewrite Forall_forall in H2. destruct (H2 mv Hin) as (_ & Hrel).
  destruct (castling_squares b s mv Hin) as [Hshort Hlong].
  assert (Hempty : get_pos b (to mv) = P_EE ->
                   get_pos b (to mv) <> P_EO
                   /\ piece_side (get_pos b (to mv)) <> s)
    by (intros E; rewrite E; split; [discriminate | intros E'; apply Hs;
        now rewrite <- E']).
  destruct (moveType mv) eqn:Ek; try contradiction; try exact Hkind;
    try congruence.
  - (* long castling *)
    apply Hempty.
    pose proof (castling_starts_at_home b s mv Hreach Hin (or_intror Ek)) as Hf.
    destruct (Hlong eq_refl) as (_ & _ & H4 & _).
    unfold get_pos. destruct Hrel as [-> ->]. rewrite Hf. exact H4.
  - (* short castling *)
    apply Hempty.
    pose proof (castling_starts_at_home b s mv Hreach Hin (or_introl Ek)) as Hf.
    destruct (Hshort eq_refl) as (_ & _ & H4 & _).
    unfold get_pos. destruct Hrel as [-> ->]. rewrite Hf. exact H4.
Qed.

End ElysiaProofs.

(** ** The search of the C++20 engine *)

Module SearchProofs.
Import Elysia ElysiaProps SearchModel ElysiaProofs.

(** *** The loops, value and board apart *)

Section Loops.

Variable prune : bool.
Variable rec : Board -> Z -> Z -> Z * Board.
Hypothesis rec_board : forall b a be, snd (rec b a be) = b.

Variable b : Board.

Lemma max_loop_split (moves : list Move) (bestVal alpha beta : Z) :
  Forall (fun mv => moveType mv <> invalid) moves ->
  max_loop prune rec moves b bestVal alpha beta
  = (fold_max prune (map (fun mv a be => fst (rec (move b mv) a be)) moves)
              bestVal alpha beta, b).
Proof.
  intros Hm. revert bestVal alpha.
  induction Hm as [|mv moves Hmv Hm IH]; intros bestVal alpha; simpl; auto.
  pose proof (rec_board (move b mv) alpha beta) as Hb.
  destruct (rec (move b mv) alpha beta) as [v b']. simpl in Hb. subst b'.
  simpl. rewrite undo_move by assumption.
  destruct (prune && _); auto.
Qed.

Lemma min_loop_split (moves : list Move) (bestVal alpha beta : Z) :
  Forall (fun mv => moveType mv <> invalid) moves ->
  min_loop prune rec moves b bestVal alpha beta
  = (fold_min prune (map (fun mv a be => fst (rec (move b mv) a be)) moves)
              bestVal alpha beta, b).
Proof.
  intros Hm. revert bestVal beta.
  induction Hm as [|mv moves Hmv Hm IH]; intros bestVal beta; simpl; auto.
  pose proof (rec_board (move b mv) alpha beta) as Hb.
  destruct (rec (move b mv) alpha beta) as [v b']. simpl in Hb. subst b'.
  simpl. rewrite undo_move by assumption.
  destruct (prune && _); auto.
Qed.

End Loops.

Lemma gen_moves_all_valid (b : Board) (s : Side) :
  Forall (fun mv => moveType mv <> invalid) (gen_moves_for_one_side b s).
Proof. apply Forall_forall. intros mv. apply gen_moves_valid. Qed.

Section Facts.

Variable piece_value : Piece -> Z.
Variable piece_pos_value : Piece -> Z -> Z -> Z.

Local Abbreviation min_max_with := (min_max_with piece_value piece_pos_value).
Local Abbreviation min_max := (min_max piece_value piece_pos_value).
Local Abbreviation min_max_no_pruning := (min_max_no_pruning piece_value piece_pos_value).
Local Abbreviation evaluate := (evaluate piece_value piece_pos_value).
Local Abbreviation minimax := (minimax piece_value piece_pos_value).
Local Abbreviation value := (value piece_value piece_pos_value).
Local Abbreviation root_value := (root_value piece_value piece_pos_value).

(** Every call of [min_max] hands the board back as it received it. *)
Lemma min_max_board (prune : bool) (d : nat) :
  forall b alpha beta isMax,
    snd (min_max_with prune d b alpha beta isMax) = b.
Proof.
  induction d as [|d IH]; intros b alpha beta isMax; simpl; auto.
  destruct isMax.
  - rewrite max_loop_split; auto using gen_moves_all_valid.
  - rewrite min_loop_split; auto using gen_moves_all_valid.
Qed.

Lemma min_max_value (prune : bool) (d : nat) (b : Board) (alpha beta : Z)
                    (isMax : bool) :
  min_max_with prune d b alpha beta isMax = (value prune d b alpha beta isMax, b).
Proof.
  unfold value. rewrite <- (min_max_board prune d b alpha beta isMax) at 3.
  apply surjective_pairing.
Qed.

Lemma value_0 (prune : bool) (b : Board) (alpha beta : Z) (isMax : bool) :
  value prune 0 b alpha beta isMax = evaluate b.
Proof. reflexivity. Qed.

Lemma value_S_max (prune : bool) (d : nat) (b : Board) (alpha beta : Z) :
  value prune (S d) b alpha beta true
  = fold_max prune
      (map (fun mv a be => value prune d (move b mv) a be false)
           (gen_moves_for_one_side b down))
      LOWER_BOUND alpha beta.
Proof.
  unfold value at 1. simpl.
  rewrite max_loop_split; auto using gen_moves_all_valid, min_max_board.
Qed.

Lemma value_S_min (prune : bool) (d : nat) (b : Board) (alpha beta : Z) :
  value prune (S d) b alpha beta false
  = fold_min prune
      (map (fun mv a be => value prune d (move b mv) a be true)
           (gen_moves_for_one_side b upper))
      UPPER_BOUND alpha beta.
Proof.
  unfold value at 1. simpl.
  rewrite min_loop_split; auto using gen_moves_all_valid, min_max_board.
Qed.

(** *** Pruned and plain search *)

Lemma fold_left_max_ge (l : list Z) (init : Z) : init <= fold_left Z.max l init.
Proof.
  revert init. induction l as [|x l IH]; intros init; simpl; [lia|].
  specialize (IH (Z.max init x)). lia.
Qed.

Lemma fold_left_min_le (l : list Z) (init : Z) : fold_left Z.min l init <= init.
Proof.
  revert init. induction l as [|x l IH]; intros init; simpl; [lia|].
  specialize (IH (Z.min init x)). lia.
Qed.

Lemma fold_left_max_le (l : list Z) (init hi : Z) :
  init <= hi -> Forall (fun x => x <= hi) l -> fold_left Z.max l init <= hi.
Proof.
  intros Hi Hl. revert init Hi.
  induction Hl as [|x l Hx Hl IH]; intros init Hi; simpl; auto.
  apply IH. lia.
Qed.

Lemma fold_left_min_ge (l : list Z) (init lo : Z) :
  lo <= init -> Forall (fun x => lo <= x) l -> lo <= fold_left Z.min l init.
Proof.
  intros Hi Hl. revert init Hi.
  induction Hl as [|x l Hx Hl IH]; intros init Hi; simpl; auto.
  apply IH. lia.
Qed.

Lemma fold_max_plain {X} (c : X -> Z -> Z -> Z) (m : X -> Z) (l : list X) :
  (forall x, In x l -> forall a be, c x a be = m x) ->
  forall bestVal alpha beta,
    fold_max false (map c l) bestVal alpha beta
    = fold_left Z.max (map m l) bestVal.
Proof.
  induction l as [|x l IH]; intros Hc bestVal alpha beta; simpl; auto.
  rewrite (Hc x) by now left. apply IH. intros y Hy. apply Hc. now right.
Qed.

Lemma fold_min_plain {X} (c : X -> Z -> Z -> Z) (m : X -> Z) (l : list X) :
  (forall x, In x l -> forall a be, c x a be = m x) ->
  forall bestVal alpha beta,
    fold_min false (map c l) bestVal alpha beta
    = fold_left Z.min (map m l) bestVal.
Proof.
  induction l as [|x l IH]; intros Hc bestVal alpha beta; simpl; auto.
  rewrite (Hc x) by now left. apply IH. intros y Hy. apply Hc. now right.
Qed.

(** The maximising loop with the early exit, against the plain maximum:
    as long as no cut has happened ([bestVal < beta]) the running best
    value [agrees] with the running maximum, and it still does at the
    end. *)
Lemma fold_max_sound {X} (c : X -> Z -> Z -> Z) (m : X -> Z) (lo hi : Z)
                     (l : list X) :
  (forall x, In x l -> forall a be,
        lo <= a -> a < be -> be <= hi -> agrees (c x a be) (m x) a be) ->
  forall bestVal mb alpha beta,
    lo <= alpha -> alpha < beta -> beta <= hi -> bestVal < beta ->
    agrees bestVal mb alpha beta ->
    agrees (fold_max true (map c l) bestVal (Z.max alpha bestVal) beta)
           (fold_left Z.max (map m l) mb) alpha beta.
Proof.
  induction l as [|x l IH]; intros Hc bestVal mb alpha beta Hlo Hab Hhi Hb Hag;
    simpl; auto.
  assert (Hx : agrees (c x (Z.max alpha bestVal) beta) (m x)
                      (Z.max alpha bestVal) beta)
    by (apply Hc; [now left | lia | lia | lia]).
  set (v := c x (Z.max alpha bestVal) beta) in *.
  replace (Z.max (Z.max alpha bestVal) (Z.max bestVal v))
    with (Z.max alpha (Z.max bestVal v)) by lia.
  rewrite Z.geb_leb.
  destruct (Z.leb_spec beta (Z.max alpha (Z.max bestVal v))) as [Hcut|Hgo].
  - pose proof (fold_left_max_ge (map m l) (Z.max mb (m x))).
    unfold agrees in *. lia.
  - apply IH; auto; try lia.
    + intros y Hy. apply Hc. now right.
    + unfold agrees in *. lia.
Qed.

Lemma fold_min_sound {X} (c : X -> Z -> Z -> Z) (m : X -> Z) (lo hi : Z)
                     (l : list X) :
  (forall x, In x l -> forall a be,
        lo <= a -> a < be -> be <= hi -> agrees (c x a be) (m x) a be) ->
  forall bestVal mb alpha beta,
    lo <= alpha -> alpha < beta -> beta <= hi -> alpha < bestVal ->
    agrees bestVal mb alpha beta ->
    agrees (fold_min true (map c l) bestVal alpha (Z.min beta bestVal))
           (fold_left Z.min (map m l) mb) alpha beta.
Proof.
  induction l as [|x l IH]; intros Hc bestVal mb alpha beta Hlo Hab Hhi Hb Hag;
    simpl; auto.
  assert (Hx : agrees (c x alpha (Z.min beta bestVal)) (m x)
                      alpha (Z.min beta bestVal))
    by (apply Hc; [now left | lia | lia | lia]).
  set (v := c x alpha (Z.min beta bestVal)) in *.
  replace (Z.min (Z.min beta bestVal) (Z.min bestVal v))
    with (Z.min beta (Z.min bestVal v)) by lia.
  rewrite Z.geb_leb.
  destruct (Z.leb_spec (Z.min beta (Z.min bestVal v)) alpha) as [Hcut|Hgo].
  - pose proof (fold_left_min_le (map m l) (Z.min mb (m x))).
    unfold agrees in *. lia.
  - apply IH; auto; try lia.
    + intros y Hy. apply Hc. now right.
    + unfold agrees in *. lia.
Qed.

Lemma bounds_apart : LOWER_BOUND < UPPER_BOUND.
Proof. reflexivity. Qed.

(** The search without the early exit is plain minimax, whatever the
    window. *)
Lemma value_plain (d : nat) :
  forall b alpha beta isMax, value false d b alpha beta isMax = minimax d b isMax.
Proof.
  induction d as [|d IH]; intros b alpha beta isMax; [reflexivity|].
  destruct isMax.
  - rewrite value_S_max. simpl. apply fold_max_plain. intros; apply IH.
  - rewrite value_S_min. simpl. apply fold_min_plain. intros; apply IH.
Qed.

(** The search with the early exit [agrees] with plain minimax on every
    window that lies between the two sentinels. *)
Lemma value_agrees (d : nat) :
  forall b isMax alpha beta,
    LOWER_BOUND <= alpha -> alpha < beta -> beta <= UPPER_BOUND ->
    agrees (value true d b alpha beta isMax) (minimax d b isMax) alpha beta.
Proof.
  induction d as [|d IH]; intros b isMax alpha beta Hlo Hab Hhi.
  - rewrite value_0. simpl. unfold agrees. lia.
  - destruct isMax.
    + rewrite value_S_max. simpl.
      replace alpha with (Z.max alpha LOWER_BOUND) at 1 by lia.
      apply fold_max_sound with (lo := LOWER_BOUND) (hi := UPPER_BOUND);
        auto; try lia.
      unfold agrees. lia.
    + rewrite value_S_min. simpl.
      replace beta with (Z.min beta UPPER_BOUND) at 1 by lia.
      apply fold_min_sound with (lo := LOWER_BOUND) (hi := UPPER_BOUND);
        auto; try lia.
      unfold agrees. lia.
Qed.

Lemma minimax_max_ge (d : nat) (b : Board) :
  LOWER_BOUND <= minimax (S d) b true.
Proof. simpl. apply fold_left_max_ge. Qed.

Lemma minimax_min_le (d : nat) (b : Board) :
  minimax (S d) b false <= UPPER_BOUND.
Proof. simpl. apply fold_left_min_le. Qed.

(** From depth 2 on, the plain value lies between the sentinels whatever
    the evaluator returns: each of the two loops starts from one of
    them. *)
Lemma minimax_between (d : nat) (b : Board) (isMax : bool) :
  LOWER_BOUND <= minimax (S (S d)) b isMax <= UPPER_BOUND.
Proof.
  destruct isMax.
  - split; [apply minimax_max_ge|].
    cbn [SearchModel.minimax].
    apply fold_left_max_le; [pose proof bounds_apart; lia|].
    apply Forall_forall. intros x Hx. apply in_map_iff in Hx.
    destruct Hx as (mv & <- & _). apply (minimax_min_le d).
  - split; [|apply minimax_min_le].
    cbn [SearchModel.minimax].
    apply fold_left_min_ge; [pose proof bounds_apart; lia|].
    apply Forall_forall. intros x Hx. apply in_map_iff in Hx.
    destruct Hx as (mv & <- & _). apply (minimax_max_ge d).
Qed.

Lemma minimax_1_between (b : Board) (isMax : bool) :
  (forall mv, In mv (gen_moves_for_one_side b (if isMax then down else upper)) ->
              LOWER_BOUND <= evaluate (move b mv) <= UPPER_BOUND) ->
  LOWER_BOUND <= minimax 1 b isMax <= UPPER_BOUND.
Proof.
  intros H. destruct isMax.
  - split; [apply minimax_max_ge|]. simpl.
    apply fold_left_max_le; [pose proof bounds_apart; lia|].
    apply Forall_forall. intros x Hx. apply in_map_iff in Hx.
    destruct Hx as (mv & <- & Hmv). now apply H.
  - split; [|apply minimax_min_le]. simpl.
    apply fold_left_min_ge; [pose proof bounds_apart; lia|].
    apply Forall_forall. intros x Hx. apply in_map_iff in Hx.
    destruct Hx as (mv & <- & Hmv). now apply H.
Qed.

(** On the window of the two sentinels the pruned search is exact. *)
Lemma value_exact (d : nat) (b : Board) (isMax : bool) :
  (d = 1%nat ->
   forall mv, In mv (gen_moves_for_one_side b (if isMax then down else upper)) ->
              LOWER_BOUND <= evaluate (move b mv) <= UPPER_BOUND) ->
  value true d b LOWER_BOUND UPPER_BOUND isMax = minimax d b isMax.
Proof.
  intros H1.
  assert (Hag := value_agrees d b isMax LOWER_BOUND UPPER_BOUND
                              (Z.le_refl _) bounds_apart (Z.le_refl _)).
  assert (Hm : d = 0%nat
               \/ LOWER_BOUND <= minimax d b isMax <= UPPER_BOUND).
  { destruct d as [|[|d]]; auto; right.
    - apply minimax_1_between. auto.
    - apply minimax_between. }
  destruct Hm as [-> | Hm]; [reflexivity|].
  unfold agrees in Hag. lia.
Qed.

(** *** Claim C2 *)


End Facts.



(** *** The root loop as a fold *)

Section Scan.

Variable better : Z -> Z -> bool.
Hypothesis better_trans :
  forall x y z, better x y = true -> better y z = true -> better x z = true.
Hypothesis better_total : forall x y, better x y = false -> better y x = true.

Variable val : Move -> Z.

Lemma scan_step_combine (a1 acc : Z * Move) (x : Move) :
  scan_step better val (combine_best better a1 acc) x
  = combine_best better (scan_step better val a1 x) acc.
Proof.
  unfold scan_step, combine_best.
  destruct (better (fst a1) (fst acc)) eqn:E1.
  - destruct (better (val x) (fst a1)) eqn:E2; simpl; [|now rewrite E1].
    now rewrite (better_trans _ _ _ E2 E1).
  - destruct (better (val x) (fst acc)) eqn:E2.
    + rewrite (better_trans _ _ _ E2 (better_total _ _ E1)). simpl.
      now rewrite E2.
    + destruct (better (val x) (fst a1)); simpl; [now rewrite E2 | now rewrite E1].
Qed.

Lemma scan_combine (l : list Move) :
  forall a1 acc,
    scan better val l (combine_best better a1 acc)
    = combine_best better (scan better val l a1) acc.
Proof.
  unfold scan. induction l as [|x l IH]; intros a1 acc; simpl; auto.
  rewrite scan_step_combine. apply IH.
Qed.

(** A chunk whose first move is taken from the fresh accumulator [init]
    can be scanned from [init] and merged afterwards. *)
Lemma scan_restart (x : Move) (l : list Move) (init acc : Z * Move) :
  better (val x) (fst init) = true ->
  scan better val (x :: l) acc
  = combine_best better (scan better val (x :: l) init) acc.
Proof.
  intros Hx.
  assert (E1 : scan_step better val init x = (val x, x))
    by (unfold scan_step; now rewrite Hx).
  assert (E2 : scan_step better val acc x
               = combine_best better (val x, x) acc) by reflexivity.
  unfold scan; simpl. rewrite E1, E2. apply scan_combine.
Qed.

Lemma scan_app (l1 l2 : list Move) (acc : Z * Move) :
  scan better val (l1 ++ l2) acc = scan better val l2 (scan better val l1 acc).
Proof. unfold scan. apply fold_left_app. Qed.

Lemma scan_chunks (init : Z * Move) (chunks : list (list Move)) :
  Forall (fun c => exists x l, c = x :: l /\ better (val x) (fst init) = true)
         chunks ->
  forall acc,
    scan better val (concat chunks) acc
    = fold_left (fun acc c => combine_best better (scan better val c init) acc)
                chunks acc.
Proof.
  induction 1 as [|c chunks (x & l & -> & Hx) _ IH]; intros acc;
    [reflexivity|].
  cbn [concat fold_left].
  rewrite scan_app, (scan_restart x l init acc Hx). apply IH.
Qed.

End Scan.

Lemma leb_trans x y z : (x <=? y) = true -> (y <=? z) = true -> (x <=? z) = true.
Proof. rewrite !Z.leb_le. lia. Qed.

Lemma leb_total x y : (x <=? y) = false -> (y <=? x) = true.
Proof. rewrite Z.leb_gt, Z.leb_le. lia. Qed.

Lemma geb_trans x y z : (x >=? y) = true -> (y >=? z) = true -> (x >=? z) = true.
Proof. rewrite !Z.geb_leb, !Z.leb_le. lia. Qed.

Lemma geb_total x y : (x >=? y) = false -> (y >=? x) = true.
Proof. rewrite !Z.geb_leb, Z.leb_gt, Z.leb_le. lia. Qed.

(** *** [split_vector] *)

Lemma firstn_plus {A} (a n : nat) (l : list A) :
  firstn (a + n) l = firstn a l ++ firstn n (skipn a l).
Proof.
  revert l. induction a as [|a IH]; intros [|x l]; simpl; auto.
  - now rewrite firstn_nil.
  - now rewrite IH.
Qed.

Lemma split_loop_ok {A} (vec : list A) (chunkNum chunkLength : Z) :
  1 <= chunkLength -> 1 <= chunkNum ->
  chunkNum * chunkLength <= Z.of_nat (length vec) ->
  forall fuel counter result,
    0 <= counter <= chunkNum - 1 ->
    (Z.to_nat (chunkNum - 1 - counter) <= fuel)%nat ->
    concat result = firstn (Z.to_nat (counter * chunkLength)) vec ->
    Forall (fun c => c <> []) result ->
    exists chunks,
      split_loop fuel vec chunkNum chunkLength counter result = Some chunks
      /\ concat chunks = vec /\ Forall (fun c => c <> []) chunks.
Proof.
  intros Hcl Hcn Hlen.
  assert (Hpred : size_t_pred chunkNum = chunkNum - 1).
  { unfold size_t_pred. destruct (Z.eqb_spec chunkNum 0); [lia | reflexivity]. }
  induction fuel as [|fuel IH]; intros counter result Hc Hf Hcat Hne.
  - assert (counter = chunkNum - 1) as -> by lia.
    cbn [split_loop]. rewrite Hpred, Z.eqb_refl.
    unfold span_of.
    destruct (Z.leb_spec 0 ((chunkNum - 1) * chunkLength)); [|nia].
    destruct (Z.leb_spec 0 (Z.of_nat (length vec) - (chunkNum - 1) * chunkLength));
      [|nia].
    destruct (Z.leb_spec ((chunkNum - 1) * chunkLength
                          + (Z.of_nat (length vec) - (chunkNum - 1) * chunkLength))
                         (Z.of_nat (length vec))); [|lia].
    cbn [andb]. eexists. split; [reflexivity|].
    rewrite firstn_all2 by (rewrite length_skipn; lia).
    split.
    + rewrite concat_app, Hcat. simpl. rewrite app_nil_r. apply firstn_skipn.
    + apply Forall_app. split; auto. constructor; auto.
      intros E. apply (f_equal (@length A)) in E.
      rewrite length_skipn in E. simpl in E. nia.
  - cbn [split_loop]. rewrite Hpred.
    destruct (Z.eqb_spec counter (chunkNum - 1)) as [->|Hneq].
    + unfold span_of.
      destruct (Z.leb_spec 0 ((chunkNum - 1) * chunkLength)); [|nia].
      destruct (Z.leb_spec 0 (Z.of_nat (length vec) - (chunkNum - 1) * chunkLength));
        [|nia].
      destruct (Z.leb_spec ((chunkNum - 1) * chunkLength
                            + (Z.of_nat (length vec) - (chunkNum - 1) * chunkLength))
                           (Z.of_nat (length vec))); [|lia].
      cbn [andb]. eexists. split; [reflexivity|].
      rewrite firstn_all2 by (rewrite length_skipn; lia).
      split.
      * rewrite concat_app, Hcat. simpl. rewrite app_nil_r. apply firstn_skipn.
      * apply Forall_app. split; auto. constructor; auto.
        intros E. apply (f_equal (@length A)) in E.
        rewrite length_skipn in E. simpl in E. nia.
    + unfold span_of.
      destruct (Z.leb_spec 0 (counter * chunkLength)); [|nia].
      destruct (Z.leb_spec 0 chunkLength); [|lia].
      destruct (Z.leb_spec (counter * chunkLength + chunkLength)
                           (Z.of_nat (length vec))); [|nia].
      cbn [andb]. apply IH.
      * lia.
      * lia.
      * rewrite concat_app, Hcat. simpl. rewrite app_nil_r.
        replace (Z.to_nat ((counter + 1) * chunkLength))
          with (Z.to_nat (counter * chunkLength) + Z.to_nat chunkLength)%nat
          by nia.
        now rewrite firstn_plus.
      * apply Forall_app. split; auto. constructor; auto.
        intros E. apply (f_equal (@length A)) in E.
        rewrite length_firstn, length_skipn in E. simpl in E. nia.
Qed.

(** On a vector that is not empty [split_vector] returns, and returns
    non-empty contiguous chunks that make up the vector. *)
Lemma split_vector_ok {A} (vec : list A) :
  vec <> [] ->
  exists chunks,
    split_vector vec split_chunk_num = Some chunks
    /\ concat chunks = vec /\ Forall (fun c => c <> []) chunks.
Proof.
  intros Hne. unfold split_vector, split_chunk_num.
  assert (Hlen : 1 <= Z.of_nat (length vec))
    by (destruct vec; [congruence | simpl; lia]).
  pose proof (Z.div_pos (Z.of_nat (length vec)) 32 ltac:(lia) ltac:(lia)) as Hd.
  destruct (Z.eqb_spec (Z.of_nat (length vec) / 32) 0) as [E|E].
  - apply split_loop_ok; auto; lia.
  - pose proof (Z.mul_div_le (Z.of_nat (length vec)) 32 ltac:(lia)).
    apply split_loop_ok; auto; lia.
Qed.

(** On the empty vector the loop bound wraps around and the first span
    leaves the vector. *)
Lemma split_vector_empty {A} : split_vector (@nil A) split_chunk_num = None.
Proof. reflexivity. Qed.

(** *** Sequential and parallel root search *)

Lemma fold_left_map_fun {A B C} (f : A -> C -> A) (g : B -> C) (l : list B)
                        (a : A) :
  fold_left f (map g l) a = fold_left (fun a x => f a (g x)) l a.
Proof. revert a. induction l as [|x l IH]; intros a; simpl; auto. Qed.

Lemma fold_left_ext {A B} (f g : A -> B -> A) (l : list B) (a : A) :
  (forall a x, f a x = g a x) -> fold_left f l a = fold_left g l a.
Proof.
  intros H. revert a. induction l as [|x l IH]; intros a; simpl; auto.
  now rewrite H, IH.
Qed.

Section Root.

Variable piece_value : Piece -> Z.
Variable piece_pos_value : Piece -> Z -> Z -> Z.

Local Abbreviation value := (value piece_value piece_pos_value).
Local Abbreviation root_value := (root_value piece_value piece_pos_value).
Local Abbreviation min_max_value := (min_max_value piece_value piece_pos_value).

Lemma root_loop_upper_scan (d : nat) (b : Board) (moves : list Move) :
  Forall (fun mv => moveType mv <> invalid) moves ->
  forall best bestMove,
    root_loop_upper piece_value piece_pos_value d moves b best bestMove
    = (scan Z.leb (root_value d b true) moves (best, bestMove), b).
Proof.
  induction 1 as [|mv moves Hmv Hm IH]; intros best bestMove; [reflexivity|].
  cbn [Elysia.root_loop_upper]. unfold Elysia.min_max. rewrite min_max_value.
  rewrite undo_move by assumption. unfold scan. cbn [fold_left].
  unfold scan_step at 2. cbn [fst].
  change (value true d (move b mv) LOWER_BOUND UPPER_BOUND true)
    with (root_value d b true mv).
  destruct (Z.leb (root_value d b true mv) best); apply IH.
Qed.

Lemma task_upper_scan (d : nat) (b : Board) (chunk : list Move) :
  Forall (fun mv => moveType mv <> invalid) chunk ->
  task_upper piece_value piece_pos_value d b chunk
  = (snd (scan Z.leb (root_value d b true) chunk (UPPER_BOUND, Move_default)),
     fst (scan Z.leb (root_value d b true) chunk (UPPER_BOUND, Move_default))).
Proof.
  intros H. unfold Elysia.task_upper. rewrite root_loop_upper_scan by assumption.
  now destruct (scan _ _ _ _).
Qed.

Lemma reduce_upper_pick (all : list (Move * Z)) :
  forall rs pre best k m,
    all = pre ++ rs -> nth_error (map fst all) k = Some m ->
    match reduce_upper (map snd rs) (length pre) best (Some k) with
    | Some j => nth_error (map fst all) j
    | None => None
    end
    = Some (snd (fold_left
                   (fun acc r => combine_best Z.leb (snd r, fst r) acc)
                   rs (best, m))).
Proof.
  induction rs as [|r rs IH]; intros pre best k m Hall Hk; [exact Hk|].
  cbn [map reduce_upper fold_left]. unfold combine_best at 2. cbn [fst].
  assert (Hall' : all = (pre ++ [r]) ++ rs) by (now rewrite <- app_assoc).
  assert (Hlen : length (pre ++ [r]) = S (length pre))
    by (rewrite length_app; simpl; lia).
  assert (Hr : nth_error (map fst all) (length pre) = Some (fst r)).
  { rewrite Hall, map_app, nth_error_app2 by (rewrite length_map; lia).
    rewrite length_map, Nat.sub_diag. reflexivity. }
  rewrite <- Hlen.
  destruct (Z.leb (snd r) best); now apply IH.
Qed.

Lemma parallel_upper (d : nat) (b : Board) :
  gen_moves_for_one_side b upper <> [] ->
  (forall mv, In mv (gen_moves_for_one_side b upper) ->
              Z.leb (root_value d b true mv) UPPER_BOUND = true) ->
  gen_best_for_parallel piece_value piece_pos_value b upper d
  = Some (snd (scan Z.leb (root_value d b true)
                    (gen_moves_for_one_side b upper) (UPPER_BOUND, Move_default))).
Proof.
  intros Hne Hval. unfold gen_best_for_parallel. cbn [Side_eqb].
  destruct (split_vector_ok _ Hne) as (chunks & -> & Hcat & Hch).
  assert (Hvalid : forall c, In c chunks ->
                             Forall (fun mv => moveType mv <> invalid) c).
  { intros c Hc. apply Forall_forall. intros mv Hmv.
    apply (gen_moves_valid b upper). rewrite <- Hcat.
    apply in_concat. eauto. }
  rewrite (map_ext_in _ _ _ (fun c Hc => task_upper_scan d b c (Hvalid c Hc))).
  set (val := root_value d b true) in *.
  set (init := (UPPER_BOUND, Move_default)).
  assert (Hheads : Forall (fun c => exists x l, c = x :: l
                                    /\ Z.leb (val x) (fst init) = true) chunks).
  { apply Forall_forall. intros c Hc.
    rewrite Forall_forall in Hch. specialize (Hch c Hc).
    destruct c as [|x l]; [congruence|]. exists x, l. split; auto.
    apply Hval. rewrite <- Hcat. apply in_concat. exists (x :: l).
    split; auto. now left. }
  destruct Hheads as [|c0 cs (x & l & -> & Hx) Hcs];
    [exfalso; apply Hne; now rewrite <- Hcat|].
  rewrite <- Hcat. clear Hcat Hval Hne Hvalid Hch.
  cbn [map reduce_upper concat].
  assert (H0 : Z.leb (fst (scan Z.leb val (x :: l) init)) UPPER_BOUND = true).
  { rewrite (scan_restart Z.leb leb_trans leb_total val x l init init Hx).
    unfold combine_best.
    destruct (Z.leb (fst (scan Z.leb val (x :: l) init)) (fst init)) eqn:E;
      [exact E | reflexivity]. }
  cbn [snd]. rewrite H0.
  set (rs := map (fun c => (snd (scan Z.leb val c init),
                           fst (scan Z.leb val c init))) cs).
  set (r0 := (snd (scan Z.leb val (x :: l) init),
              fst (scan Z.leb val (x :: l) init))).
  rewrite (reduce_upper_pick (r0 :: rs) rs [r0] _ 0%nat (fst r0) eq_refl eq_refl).
  f_equal.
  rewrite (scan_app Z.leb val),
          (scan_chunks Z.leb leb_trans leb_total val init cs Hcs).
  unfold rs. rewrite fold_left_map_fun. cbn [fst snd r0].
  rewrite <- surjective_pairing.
  f_equal. apply fold_left_ext. intros acc c.
  cbn [fst snd]. now rewrite <- surjective_pairing.
Qed.

Lemma sequential_upper (d : nat) (b : Board) :
  gen_best_for piece_value piece_pos_value b upper d
  = (snd (scan Z.leb (root_value d b true)
               (gen_moves_for_one_side b upper) (UPPER_BOUND, Move_default)), b).
Proof.
  unfold gen_best_for. cbn [Side_eqb].
  rewrite root_loop_upper_scan by apply gen_moves_all_valid.
  now destruct (scan _ _ _ _).
Qed.

Lemma root_loop_down_scan (d : nat) (b : Board) (moves : list Move) :
  Forall (fun mv => moveType mv <> invalid) moves ->
  forall best bestMove,
    root_loop_down piece_value piece_pos_value d moves b best bestMove
    = (scan Z.geb (root_value d b false) moves (best, bestMove), b).
Proof.
  induction 1 as [|mv moves Hmv Hm IH]; intros best bestMove; [reflexivity|].
  cbn [Elysia.root_loop_down]. unfold Elysia.min_max. rewrite min_max_value.
  rewrite undo_move by assumption. unfold scan. cbn [fold_left].
  unfold scan_step at 2. cbn [fst].
  change (value true d (move b mv) LOWER_BOUND UPPER_BOUND false)
    with (root_value d b false mv).
  destruct (Z.geb (root_value d b false mv) best); apply IH.
Qed.

Lemma task_down_scan (d : nat) (b : Board) (chunk : list Move) :
  Forall (fun mv => moveType mv <> invalid) chunk ->
  task_down piece_value piece_pos_value d b chunk
  = (snd (scan Z.geb (root_value d b false) chunk (LOWER_BOUND, Move_default)),
     fst (scan Z.geb (root_value d b false) chunk (LOWER_BOUND, Move_default))).
Proof.
  intros H. unfold Elysia.task_down. rewrite root_loop_down_scan by assumption.
  now destruct (scan _ _ _ _).
Qed.

Lemma reduce_down_pick (all : list (Move * Z)) :
  forall rs pre best k m,
    all = pre ++ rs -> nth_error (map fst all) k = Some m ->
    match reduce_down (map snd rs) (length pre) best (Some k) with
    | Some j => nth_error (map fst all) j
    | None => None
    end
    = Some (snd (fold_left
                   (fun acc r => combine_best Z.geb (snd r, fst r) acc)
                   rs (best, m))).
Proof.
  induction rs as [|r rs IH]; intros pre best k m Hall Hk; [exact Hk|].
  cbn [map reduce_down fold_left]. unfold combine_best at 2. cbn [fst].
  assert (Hall' : all = (pre ++ [r]) ++ rs) by (now rewrite <- app_assoc).
  assert (Hlen : length (pre ++ [r]) = S (length pre))
    by (rewrite length_app; simpl; lia).
  assert (Hr : nth_error (map fst all) (length pre) = Some (fst r)).
  { rewrite Hall, map_app, nth_error_app2 by (rewrite length_map; lia).
    rewrite length_map, Nat.sub_diag. reflexivity. }
  rewrite <- Hlen.
  destruct (Z.geb (snd r) best); now apply IH.
Qed.

Lemma parallel_down (d : nat) (b : Board) :
  gen_moves_for_one_side b down <> [] ->
  (forall mv, In mv (gen_moves_for_one_side b down) ->
              Z.geb (root_value d b false mv) LOWER_BOUND = true) ->
  gen_best_for_parallel piece_value piece_pos_value b down d
  = Some (snd (scan Z.geb (root_value d b false)
                    (gen_moves_for_one_side b down) (LOWER_BOUND, Move_default))).
Proof.
  intros Hne Hval. unfold gen_best_for_parallel. cbn [Side_eqb].
  destruct (split_vector_ok _ Hne) as (chunks & -> & Hcat & Hch).
  assert (Hvalid : forall c, In c chunks ->
                             Forall (fun mv => moveType mv <> invalid) c).
  { intros c Hc. apply Forall_forall. intros mv Hmv.
    apply (gen_moves_valid b down). rewrite <- Hcat.
    apply in_concat. eauto. }
  rewrite (map_ext_in _ _ _ (fun c Hc => task_down_scan d b c (Hvalid c Hc))).
  set (val := root_value d b false) in *.
  set (init := (LOWER_BOUND, Move_default)).
  assert (Hheads : Forall (fun c => exists x l, c = x :: l
                                    /\ Z.geb (val x) (fst init) = true) chunks).
  { apply Forall_forall. intros c Hc.
    rewrite Forall_forall in Hch. specialize (Hch c Hc).
    destruct c as [|x l]; [congruence|]. exists x, l. split; auto.
    apply Hval. rewrite <- Hcat. apply in_concat. exists (x :: l).
    split; auto. now left. }
  destruct Hheads as [|c0 cs (x & l & -> & Hx) Hcs];
    [exfalso; apply Hne; now rewrite <- Hcat|].
  rewrite <- Hcat. clear Hcat Hval Hne Hvalid Hch.
  cbn [map reduce_down concat].
  assert (H0 : Z.geb (fst (scan Z.geb val (x :: l) init)) LOWER_BOUND = true).
  { rewrite (scan_restart Z.geb geb_trans geb_total val x l init init Hx).
    unfold combine_best.
    destruct (Z.geb (fst (scan Z.geb val (x :: l) init)) (fst init)) eqn:E;
      [exact E | reflexivity]. }
  cbn [snd]. rewrite H0.
  set (rs := map (fun c => (snd (scan Z.geb val c init),
                           fst (scan Z.geb val c init))) cs).
  set (r0 := (snd (scan Z.geb val (x :: l) init),
              fst (scan Z.geb val (x :: l) init))).
  rewrite (reduce_down_pick (r0 :: rs) rs [r0] _ 0%nat (fst r0) eq_refl eq_refl).
  f_equal.
  rewrite (scan_app Z.geb val),
          (scan_chunks Z.geb geb_trans geb_total val init cs Hcs).
  unfold rs. rewrite fold_left_map_fun. cbn [fst snd r0].
  rewrite <- surjective_pairing.
  f_equal. apply fold_left_ext. intros acc c.
  cbn [fst snd]. now rewrite <- surjective_pairing.
Qed.

Lemma sequential_down (d : nat) (b : Board) :
  gen_best_for piece_value piece_pos_value b down d
  = (snd (scan Z.geb (root_value d b false)
               (gen_moves_for_one_side b down) (LOWER_BOUND, Move_default)), b).
Proof.
  unfold gen_best_for. cbn [Side_eqb].
  rewrite root_loop_down_scan by apply gen_moves_all_valid.
  now destruct (scan _ _ _ _).
Qed.

(** From depth 2 on, the value of every root candidate lies between the
    sentinels. *)
Lemma root_value_between (d : nat) (b : Board) (isMax : bool) (mv : Move) :
  LOWER_BOUND <= root_value (S (S d)) b isMax mv <= UPPER_BOUND.
Proof.
  unfold SearchModel.root_value.
  rewrite value_exact by discriminate. apply minimax_between.
Qed.

(** With no candidate the sequential search returns the default move and
    the parallel search has no defined result. *)
Lemma no_candidate_upper (d : nat) (b : Board) :
  gen_moves_for_one_side b upper = [] ->
  gen_best_for piece_value piece_pos_value b upper d = (Move_default, b)
  /\ gen_best_for_parallel piece_value piece_pos_value b upper d = None.
Proof.
  intros E. unfold gen_best_for, gen_best_for_parallel. cbn [Side_eqb].
  rewrite E. split; reflexivity.
Qed.

Lemma no_candidate_down (d : nat) (b : Board) :
  gen_moves_for_one_side b down = [] ->
  gen_best_for piece_value piece_pos_value b down d = (Move_default, b)
  /\ gen_best_for_parallel piece_value piece_pos_value b down d = None.
Proof.
  intros E. unfold gen_best_for, gen_best_for_parallel. cbn [Side_eqb].
  rewrite E. split; reflexivity.
Qed.

(** *** Claim C3 *)


End Root.



(** *** Claim C8 *)

(** C8, at a board on which the down side has no piece: the generator
    returns the empty list; the sequential root search returns the
    default move, of the invalid kind, and the board untouched; the
    parallel root search has no defined result, because [split_vector]
    leaves the empty vector on its first span. *)
Theorem parallel_search_undefined_without_candidates :
  gen_moves_for_one_side Samples.no_down_piece down = []
  /\ gen_best_for Samples.material Samples.flat Samples.no_down_piece down 1
     = (Move_default, Samples.no_down_piece)
  /\ moveType Move_default = invalid
  /\ split_vector (@nil Move) split_chunk_num = None
  /\ gen_best_for_parallel Samples.material Samples.flat
                           Samples.no_down_piece down 1 = None.
Proof. repeat split; vm_compute; reflexivity. Qed.

End SearchProofs.

(** ** The C++14 engine *)

Module LegacyProofs.
Import Legacy LegacySamples.

Ltac in_list := vm_compute; repeat (first [left; reflexivity | right]).

(** *** Claim C1 *)

(** [undo] has no branch that gives a castling right back after an
    ordinary king move: whenever the upper king makes a move of kind
    NORMAL while the right is still there, [move] then [undo] ends
    without it. *)
Lemma undo_keeps_castling_right_lost (cb : ChessBoard) (mv : Move) :
  moveType mv = NORMAL ->
  get_pos cb (from mv) = P_UK ->
  can_upper_castle cb = true ->
  can_upper_castle (undo (move cb mv)) = false
  /\ undo (move cb mv) <> cb.
Proof.
  intros Hk Hp Hc.
  assert (E : can_upper_castle (undo (move cb mv)) = false).
  { unfold move, undo. rewrite Hk, Hp. reflexivity. }
  split; [exact E|].
  intros Heq. rewrite Heq in E. congruence.
Qed.

(** C1, at a position of the C++14 engine reached by a generated move:
    after the upper g-pawn has stepped forward, the generator emits the
    king's step from (2, 6) to (3, 7); [move] followed by [undo] puts
    every piece back but leaves [canUpperCastle] false, where it was
    true before. *)
Theorem legacy_undo_does_not_restore_castling_right :
  In pawn_step (gen_one_side_moves new_board PS_UPPER)
  /\ In king_step (gen_one_side_moves before_king_step PS_UPPER)
  /\ data (undo (move before_king_step king_step)) = data before_king_step
  /\ can_upper_castle before_king_step = true
  /\ can_upper_castle (undo (move before_king_step king_step)) = false
  /\ undo (move before_king_step king_step) <> before_king_step.
Proof.
  split; [in_list|]. split; [in_list|].
  split; [reflexivity|]. split; [reflexivity|]. split; [reflexivity|].
  intros E. apply (f_equal can_upper_castle) in E. discriminate E.
Qed.

(** *** Claim C9 *)

(** C9, at the upper king alone on (5, 5) in the C++14 engine:
    [gen_moves_king] emits eight moves, but their destinations are the
    four diagonal neighbours, each twice; none of the four straight
    neighbours (4, 5), (5, 4), (5, 6), (6, 5), all empty, is among
    them. *)
Theorem legacy_king_tries_diagonals_twice :
  map (fun mv => (row (to mv), col (to mv)))
      (gen_moves_king lone_king (mkPos 5 5) [])
  = [(6, 4); (6, 6); (6, 4); (6, 6); (4, 4); (4, 6); (4, 4); (4, 6)]
  /\ get lone_king 4 5 = P_EE /\ get lone_king 5 4 = P_EE
  /\ get lone_king 5 6 = P_EE /\ get lone_king 6 5 = P_EE
  /\ gen_one_side_moves lone_king PS_UPPER
     = gen_moves_king lone_king (mkPos 5 5) [].
Proof. repeat split; vm_compute; reflexivity. Qed.

End LegacyProofs.
